(** * vulnix: identity resolution, the NVD cache and the matching engine

    A shallow embedding of [src/vulnix/derivation.py] and [src/vulnix/nvd.py].

    Conventions of the embedding.
    - A Python [str] is a [string]; character-level work goes through
      [chars] (its list of characters).  The character classes and the
      case mappings ([is_digit], [is_space], [lower], [upper]) are those of
      Python on ASCII characters, and only there: outside ASCII Python
      knows further digits, further white space and further letters.  A
      statement that rests on them is made for ASCII text, with
      [ascii_text] as a hypothesis.
    - A Python [set] is a duplicate-free list in insertion order
      ([set_add]); only membership and the absence of duplicates are
      meaningful.
    - A Python [dict] iterated in insertion order is an association list
      with unique keys ([dict_set]); a BTree is a [gmap].
    - An exception is an explicit outcome ([Raised]); state changed before
      the raise stays changed, as in Python.
    - [datetime] values are integers (seconds since 1970-01-01); one run
      of the updater reads the clock as the single instant [now]. *)

From Stdlib Require Import ZArith Ascii String List Bool Lia.
From stdpp Require Import base decidable option list sorting strings gmap fin_maps pretty.

Local Open Scope string_scope.
Local Open Scope Z_scope.
Local Open Scope list_scope.

(** ** Interfaces of the modules that [src/] imports but does not contain *)

(** [from .utils import compare_versions]: returns -1, 0 or 1. *)
Class VersionOrder := compare_versions : string → string → Z.

(** [from .vulnerability import Vulnerability]: the version predicate that a
    node of a vulnerability carries, and its evaluation on a version. *)
Class VersionPredicates := {
  VersionPredicate : Type;
  VersionPredicate_eq_dec :: EqDecision VersionPredicate;
  holds : VersionPredicate → string → bool;
}.

(** [json.loads], restricted to objects with string values; [None] when
    decoding raises. *)
Class JsonDecoder := json_loads : string → option (gmap string string).

(** ** Characters and strings *)

Abbreviation chars := list_ascii_of_string.
Abbreviation str := string_of_list_ascii.

Definition code (c : ascii) : N := N_of_ascii c.

(** The character is an ASCII character, and the text is ASCII text: the
    domain on which the classes and mappings below are Python's. *)
Definition is_ascii (c : ascii) : bool := (code c <? 128)%N.

Definition ascii_text (s : string) : Prop :=
  Forall (λ c, is_ascii c = true) (chars s).

(** The class of decimal digits of a regular expression, on ASCII
    characters: 0-9. *)
Definition is_digit (c : ascii) : bool :=
  ((48 <=? code c) && (code c <=? 57))%N.

Definition is_upper (c : ascii) : bool :=
  ((65 <=? code c) && (code c <=? 90))%N.

Definition is_lower (c : ascii) : bool :=
  ((97 <=? code c) && (code c <=? 122))%N.

(** [str.isspace], and the white space of a regular expression, on ASCII
    characters: TAB..CR, FS..US and the blank. *)
Definition is_space (c : ascii) : bool :=
  ((9 <=? code c) && (code c <=? 13) || (28 <=? code c) && (code c <=? 32))%N.

Definition lower_char (c : ascii) : ascii :=
  if is_upper c then ascii_of_N (code c + 32) else c.

Definition upper_char (c : ascii) : ascii :=
  if is_lower c then ascii_of_N (code c - 32) else c.

(** [s.lower()] and [s.upper()] on ASCII text. *)
Definition lower (s : string) : string := str (map lower_char (chars s)).
Definition upper (s : string) : string := str (map upper_char (chars s)).

(** [s.endswith(e)] *)
Definition endswith (s e : string) : bool :=
  bool_decide (chars e `suffix_of` chars s).

(** [s[:-n]] for [n <= len(s)] *)
Definition drop_last (n : nat) (s : string) : string :=
  str (take (length (chars s) - n) (chars s)).

(** [s.replace(a, b)] for single characters *)
Definition replace_char (a b : ascii) (s : string) : string :=
  str (map (λ c, if decide (c = a) then b else c) (chars s)).

(** Longest prefix whose characters satisfy [p], and what follows it. *)
Fixpoint span (p : ascii → bool) (s : list ascii) : list ascii * list ascii :=
  match s with
  | [] => ([], [])
  | c :: s' => if p c then let '(w, r) := span p s' in (c :: w, r) else ([], s)
  end.

(** ** derivation.py: [split_name] *)

Module R_VERSION.

(** The pattern of [R_VERSION] as [re.match] runs it: from the start of the
    string a lazy non-empty run of non-space characters (group 1), a dash,
    then a digit followed by a greedy run of non-space characters (group 2),
    up to the end of the string. *)

(** What follows the leading digit of group 2: the run of non-space
    characters is taken whole, and the end anchor accepts the end of the
    string or a final newline. *)
Definition tail (t : list ascii) : option (list ascii) :=
  let '(w, r) := span (λ c, negb (is_space c)) t in
  match r with
  | [] => Some w
  | ["010"%char] => Some w
  | _ => None
  end.

(** The dash and group 2 at the current position. *)
Definition group2 (s : list ascii) : option (list ascii) :=
  match s with
  | "-"%char :: d :: t => if is_digit d then (d ::.) <$> tail t else None
  | _ => None
  end.

(** Group 1 is lazy: with [acc] already consumed (in reverse), try to finish
    here first, and only then take one more non-space character. *)
Fixpoint go (acc s : list ascii) : option (list ascii * list ascii) :=
  match s with
  | [] => None
  | c :: s' =>
      match group2 s with
      | Some v => Some (rev acc, v)
      | None => if is_space c then None else go (c :: acc) s'
      end
  end.

Definition match_ (s : list ascii) : option (list ascii * list ascii) :=
  match s with
  | [] => None
  | c :: s' => if is_space c then None else go [c] s'
  end.

End R_VERSION.

Definition split_name (fullname : string) : string * option string :=
  let fullname := lower fullname in
  let fullname := if endswith fullname ".drv" then drop_last 4 fullname else fullname in
  match R_VERSION.match_ (chars fullname) with
  | Some (g1, g2) => (str g1, Some (str g2))
  | None => (fullname, None)
  end.


(** ** Python containers *)

(** [s.add(x)] on a [set]. *)
Definition set_add `{EqDecision A} (x : A) (s : list A) : list A :=
  if decide (x ∈ s) then s else s ++ [x].

(** The loop [for x in l: if p(x): s.add(x)]. *)
Definition add_if `{EqDecision A} (p : A → bool) (s l : list A) : list A :=
  foldl (λ s x, if p x then set_add x s else s) s l.

(** [d[k] = v] on a [dict]: an existing key keeps its position. *)
Fixpoint dict_set {V} (k : string) (v : V) (d : list (string * V)) : list (string * V) :=
  match d with
  | [] => [(k, v)]
  | (k', v') :: d' => if decide (k' = k) then (k, v) :: d' else (k', v') :: dict_set k v d'
  end.

(** [d.get(k)] *)
Fixpoint dict_get {V} (k : string) (d : list (string * V)) : option V :=
  match d with
  | [] => None
  | (k', v) :: d' => if decide (k' = k) then Some v else dict_get k d'
  end.

(** ** Vulnerability records *)

(** Modelled from the spec: [vulnerability.py] is not under [src/].  A
    record has a CVE identifier and an ordered sequence of nodes, each
    naming a product and carrying a version predicate; a node matches on
    product-name equality plus its predicate, a record matches when any of
    its nodes does.  Two records are the same when all their fields are. *)
Record Node `{VersionPredicates} := {
  product : string;
  versionPredicate : VersionPredicate;
}.

Record Vulnerability `{VersionPredicates} := {
  cve_id : string;
  nodes : list Node;
}.

#[global] Instance Node_eq_dec `{VersionPredicates} : EqDecision Node.
Proof. solve_decision. Defined.

#[global] Instance Vulnerability_eq_dec `{VersionPredicates} : EqDecision Vulnerability.
Proof. solve_decision. Defined.

Definition Node_match `{VersionPredicates} (n : Node) (pname version : string) : bool :=
  bool_decide (product n = pname) && holds (versionPredicate n) version.

Definition Vulnerability_match `{VersionPredicates}
  (v : Vulnerability) (pname version : string) : bool :=
  existsb (λ n, Node_match n pname version) (nodes v).

(** ** Response headers *)

(** [requests.structures.CaseInsensitiveDict], the type of [r.headers]: the
    store holds every header under its name in lower case, and a lookup
    lower-cases the key it is given.  Header names are ASCII. *)
Definition ci_get (store : gmap string string) (key : string) : option string :=
  store !! lower key.

(** ** nvd.py: [class Meta] *)

Module Meta.

(** [etag] is [None] until the first validator is stored. *)
Record t := {
  pack_counter : Z;
  last_update : Z;
  etag : option (gmap string string);
}.

(** The class attributes: the state of a fresh object. *)
Definition default : t :=
  {| pack_counter := 0; last_update := 0; etag := None |}.

Definition set_pack_counter (self : t) (n : Z) : t :=
  {| pack_counter := n; last_update := last_update self; etag := etag self |}.

Definition set_last_update (self : t) (d : Z) : t :=
  {| pack_counter := pack_counter self; last_update := d; etag := etag self |}.

(** The result and the mutated object. *)
Definition should_pack (self : t) : bool * t :=
  let self := set_pack_counter self (pack_counter self + 1) in
  if bool_decide (pack_counter self > 25)
  then (true, set_pack_counter self 0)
  else (false, self).

(** The additional request headers. *)
Definition headers_for (self : t) (url : string) : gmap string string :=
  match etag self with
  | Some tags =>
      match tags !! url with
      | Some e => {[ "If-None-Match" := e ]}
      | None => ∅
      end
  | None => ∅
  end.

(** [resp_headers] is the case-insensitive mapping [r.headers], given by
    its store ([ci_get]). *)
Definition update_headers_for (self : t) (url : string)
  (resp_headers : gmap string string) : t :=
  match ci_get resp_headers "ETag" with
  | Some e =>
      let tags := match etag self with Some tags => tags | None => ∅ end in
      {| pack_counter := pack_counter self; last_update := last_update self;
         etag := Some (<[url := e]> tags) |}
  | None => self
  end.

End Meta.

(** ** The connection's root object *)

(** The keys [advisory], [by_product] and [meta], which [NVD.__enter__]
    guarantees to exist. *)
Record Root `{VersionPredicates} := {
  advisory : gmap string Vulnerability;
  by_product : gmap string (list Vulnerability);
  meta : Meta.t;
}.

Definition Root_empty `{VersionPredicates} : Root :=
  {| advisory := ∅; by_product := ∅; meta := Meta.default |}.

Definition set_advisory `{VersionPredicates} (r : Root) a : Root :=
  {| advisory := a; by_product := by_product r; meta := meta r |}.
Definition set_by_product `{VersionPredicates} (r : Root) i : Root :=
  {| advisory := advisory r; by_product := i; meta := meta r |}.
Definition set_meta `{VersionPredicates} (r : Root) m : Root :=
  {| advisory := advisory r; by_product := by_product r; meta := m |}.

(** ** The network and the effects of a run *)

(** An archive name: a year or the literal [modified]. *)
Inductive ArchiveName := Year (y : Z) | modified.

#[global] Instance ArchiveName_eq_dec : EqDecision ArchiveName.
Proof. solve_decision. Defined.

(** What [requests.get] gives for a URL and request headers: no response
    at all (it raises: timeout, connection failure) or a response with its
    status code, headers and body.  The headers are the store of the
    case-insensitive mapping [r.headers]: each under its lower-case name.
    The body is [None] when it cannot be decompressed and decoded, else the
    decoded [CVE_Items], each the record that [Vulnerability.parse] returns
    or [None] where it raises [ValueError]. *)
Inductive Response `{VersionPredicates} :=
| NoResponse
| HTTP (status_code : Z) (headers : gmap string string)
       (content : option (list (option Vulnerability))).

Definition Network `{VersionPredicates} := string → gmap string string → Response.

Inductive Exn := RequestException | HTTPError | DecodeError.

Inductive Result (A : Type) := Ok (a : A) | Raised (e : Exn).
Arguments Ok {A} a.
Arguments Raised {A} e.

(** The state a run works on: the root of the open connection, and the
    requests made so far with what came back, oldest first. *)
Record State `{VersionPredicates} := {
  root : Root;
  fetched : list (string * Response);
}.

(** A computation that may raise; the state it leaves is returned either
    way. *)
Definition M `{VersionPredicates} (A : Type) : Type := State → Result A * State.

Definition ret `{VersionPredicates} {A} (a : A) : M A := λ st, (Ok a, st).

Definition raise `{VersionPredicates} {A} (e : Exn) : M A := λ st, (Raised e, st).

Definition bind `{VersionPredicates} {A B} (m : M A) (k : A → M B) : M B :=
  λ st, match m st with
        | (Ok a, st') => k a st'
        | (Raised e, st') => (Raised e, st')
        end.

Definition get_root `{VersionPredicates} : M Root := λ st, (Ok (root st), st).

Definition put_root `{VersionPredicates} (r : Root) : M unit :=
  λ st, (Ok tt, {| root := r; fetched := fetched st |}).

(** [requests.get(url, headers=...)] against the network [net]. *)
Definition requests_get `{VersionPredicates} (net : Network) (url : string)
  (headers : gmap string string) : M Response :=
  λ st, let r := net url headers in
        (Ok r, {| root := root st; fetched := fetched st ++ [(url, r)] |}).

Notation "x <- m ;; k" := (bind m (λ x, k))
  (at level 100, m at next level, right associativity).
Notation "m ;;; k" := (bind m (λ _, k))
  (at level 100, right associativity).

(** ** nvd.py: [class Archive] *)

Module Archive.

Record t `{VersionPredicates} := {
  name : ArchiveName;
  download_uri : string;
  advisories : list (string * Vulnerability);
}.

Definition format_name (a : ArchiveName) : string :=
  match a with Year y => pretty y | modified => "modified" end.

Definition __init__ `{VersionPredicates} (name : ArchiveName) : t :=
  {| name := name;
     download_uri := "nvdcve-1.1-" +:+ format_name name +:+ ".json.gz";
     advisories := [] |}.

(** [parse] on the decoded [CVE_Items]. *)
Definition parse `{VersionPredicates} (self : t)
  (raw : list (option Vulnerability)) : t :=
  {| name := name self; download_uri := download_uri self;
     advisories :=
       foldl (λ d item, match item with
                        | Some vuln => dict_set (cve_id vuln) vuln d
                        | None => d
                        end) (advisories self) raw |}.

(** [r.raise_for_status()] raises for the client and server error codes. *)
Definition raise_for_status `{VersionPredicates} (status_code : Z) : M unit :=
  if bool_decide (400 ≤ status_code < 600) then raise HTTPError else ret tt.

(** [download] returns the archive object as the call leaves it; the
    metadata it mutates is the [meta] of the root. *)
Definition download `{VersionPredicates} (net : Network) (now : Z)
  (self : t) (mirror : string) : M t :=
  let url := mirror +:+ download_uri self in
  r0 <- get_root ;;
  r <- requests_get net url (Meta.headers_for (meta r0) url) ;;
  match r with
  | NoResponse => raise RequestException
  | HTTP status_code headers content =>
      raise_for_status status_code ;;;
      if bool_decide (status_code = 200) then
        match content with
        | None => raise DecodeError
        | Some raw =>
            let self := parse self raw in
            let metadata := Meta.update_headers_for (meta r0) url headers in
            let metadata := Meta.set_last_update metadata now in
            put_root (set_meta r0 metadata) ;;;
            ret self
        end
      else ret self
  end.

Definition items `{VersionPredicates} (self : t) := advisories self.

End Archive.

(** ** The object database *)

(** ZODB as the code uses it.  [Data.fs] holds the committed states of the
    root, newest first; [transaction.commit] appends the working root when
    it differs from the last committed one, [transaction.abort] drops the
    working root, and [pack] discards the superseded states. *)
Record DB `{VersionPredicates} := { revisions : list Root }.

#[global] Instance Meta_eq_dec : EqDecision Meta.t.
Proof. solve_decision. Defined.

#[global] Instance Root_eq_dec `{VersionPredicates} : EqDecision Root.
Proof. solve_decision. Defined.

(** The root a new connection sees. *)
Definition current `{VersionPredicates} (db : DB) : Root :=
  hd Root_empty (revisions db).

Definition transaction_commit `{VersionPredicates} (r : Root) (db : DB) : DB :=
  if decide (r = current db) then db else {| revisions := r :: revisions db |}.

Definition pack `{VersionPredicates} (db : DB) : DB :=
  {| revisions := take 1 (revisions db) |}.

(** ** nvd.py: [class NVD] *)

Module NVD.

Record t := {
  mirror : string;
  available_archives : list Z;
}.

(** [s.rstrip(c)] for one character. *)
Definition rstrip (c : ascii) (s : string) : string :=
  str (rev (snd (span (λ x, bool_decide (x = c)) (rev (chars s))))).

(** [current] is [date.today().year]. *)
Definition __init__ (mirror : string) (current : Z) : t :=
  {| mirror := rstrip "/" mirror +:+ "/";
     available_archives := seqZ (current - 5) 6 |}.

(** [__enter__]: the state of the connection it opens. *)
Definition __enter__ `{VersionPredicates} (db : DB) : State :=
  {| root := current db; fetched := [] |}.

(** [__exit__]: whether the database was packed, and the database it
    leaves. *)
Definition __exit__ `{VersionPredicates} (exc_type : option Exn)
  (st : State) (db : DB) : bool * DB :=
  match exc_type with
  | None =>
      let '(p, m) := Meta.should_pack (meta (root st)) in
      let r := set_meta (root st) m in
      if p then (true, transaction_commit r (pack (transaction_commit r db)))
      else (false, transaction_commit r db)
  | Some _ => (false, db)
  end.

Definition relevant_archives `{VersionPredicates} (self : t) (now : Z)
  (r : Root) : list ArchiveName :=
  let last_update := Meta.last_update (meta r) in
  if bool_decide (last_update > now - 3600) then []
  else if bool_decide (last_update > now - 7 * 86400) then [modified]
  else (Year <$> available_archives self) ++ [modified].

Definition add `{VersionPredicates} (archive : Archive.t) : M unit :=
  r <- get_root ;;
  put_root (set_advisory r
    (foldl (λ advisories '(cve_id, adv), <[cve_id := adv]> advisories)
           (advisory r) (Archive.items archive))).

(** [tree.values()]: the values of a BTree in the order of their keys. *)
Definition values {V} (tree : gmap string V) : list V :=
  snd <$> merge_sort (λ x y, String.le (fst x) (fst y)) (map_to_list tree).

(** The body of the outer loop of [reindex]. *)
Definition index_vuln `{VersionPredicates}
  (bp : gmap string (list Vulnerability)) (vuln : Vulnerability) :=
  foldl (λ bp prod,
           let bp := if decide (bp !! prod = None) then <[prod := []]> bp else bp in
           <[prod := default [] (bp !! prod) ++ [vuln]]> bp)
        bp (product <$> nodes vuln).

Definition reindex `{VersionPredicates} : M unit :=
  r <- get_root ;;
  put_root (set_by_product r (foldl index_vuln ∅ (values (advisory r)))).

Fixpoint update_loop `{VersionPredicates} (net : Network) (now : Z)
  (self : t) (archives : list ArchiveName) : M unit :=
  match archives with
  | [] => ret tt
  | a :: archives =>
      arch <- Archive.download net now (Archive.__init__ a) (mirror self) ;;
      add arch ;;;
      update_loop net now self archives
  end.

Definition update `{VersionPredicates} (net : Network) (now : Z) (self : t) : M unit :=
  r <- get_root ;;
  update_loop net now self (relevant_archives self now r) ;;;
  reindex.

(** [by_id]: [None] stands for the [KeyError]. *)
Definition by_id `{VersionPredicates} (r : Root) (cve_id : string) :
  option Vulnerability :=
  advisory r !! cve_id.

Definition by_product `{VersionPredicates} (r : Root) (product : string) :
  list Vulnerability :=
  match by_product r !! product with
  | Some l => l
  | None => []
  end.

Definition affected `{VersionPredicates} (r : Root) (pname version : string) :
  list Vulnerability :=
  add_if (λ vuln, Vulnerability_match vuln pname version) [] (by_product r pname).

(** [with NVD(...) as nvd: body]: the outcome of the body, whether the
    database was packed, the database left behind and the requests made. *)
Definition session `{VersionPredicates} {A} (body : M A) (db : DB) :
  Result A * bool * DB * list (string * Response) :=
  let '(res, st) := body (__enter__ db) in
  let exc_type := match res with Ok _ => None | Raised e => Some e end in
  let '(packed, db') := __exit__ exc_type st db in
  (res, packed, db', fetched st).

End NVD.

(** ** derivation.py: the CVE pattern *)

Module R_CVE.

(** [c] is the letter [x] (given in lower case) in either case. *)
Definition letter (x c : ascii) : bool := bool_decide (lower_char c = x).

Definition dash (c : ascii) : bool := bool_decide (c = "-"%char).

(** The pattern at the head of [s]: the letters CVE in either case, a
    dash, four digits, a dash and a greedy non-empty run of digits.  The
    result is the matched text and what follows it. *)
Definition match_at (s : list ascii) : option (list ascii * list ascii) :=
  match s with
  | c :: v :: e :: d1 :: y1 :: y2 :: y3 :: y4 :: d2 :: n :: s' =>
      if letter "c" c && letter "v" v && letter "e" e && dash d1
         && is_digit y1 && is_digit y2 && is_digit y3 && is_digit y4
         && dash d2 && is_digit n
      then let '(ds, rest) := span is_digit s' in
           Some ([c; v; e; d1; y1; y2; y3; y4; d2; n] ++ ds, rest)
      else None
  | _ => None
  end.

(** [finditer]: the matches from left to right, none overlapping another;
    [skip] counts the characters of the last match still to pass. *)
Fixpoint finditer_from (skip : nat) (s : list ascii) : list (list ascii) :=
  match s with
  | [] => []
  | _ :: s' =>
      match skip with
      | S k => finditer_from k s'
      | O =>
          match match_at s with
          | Some (m, _) => m :: finditer_from (length m - 1) s'
          | None => finditer_from 0 s'
          end
      end
  end.

Definition finditer (s : string) : list string := str <$> finditer_from 0 (chars s).

End R_CVE.

(** ** derivation.py: [class Derive] *)

Module Derive.

Record t := {
  name : string;
  pname : string;
  version : string;
  patches : string;
}.

(** How [__init__] ends: with the object, with [SkipDrv], or with the
    failure of [destructure]. *)
Inductive Init := Built (self : t) | SkipDrv | Failed.

(** The operand of [x or y] and [not x]: [None] and the empty string are
    false. *)
Definition truthy (x : option string) : option string :=
  match x with
  | Some s => if decide (s = "") then None else Some s
  | None => None
  end.

(** [destructure(env)['name']] *)
Definition destructure_name `{JsonDecoder} (env : gmap string string) : option string :=
  j ← env !! "__json"; d ← json_loads j; d !! "name".

Definition extensions : list string :=
  [".tar.gz"; ".tar.bz2"; ".tar.xz"; ".zip"; ".patch"; ".diff"].

(** The value of [self.name] before the extension test; [None] when
    [destructure] or the lookup of its [name] raises. *)
Definition resolved_name `{JsonDecoder} (envVars : gmap string string)
  (name : option string) : option string :=
  let name := match truthy name with
              | Some n => Some n
              | None => envVars !! "name"
              end in
  match truthy name with
  | Some n => Some n
  | None => destructure_name envVars
  end.

Definition __init__ `{JsonDecoder} (envVars : gmap string string)
  (name patches : option string) : Init :=
  match resolved_name envVars name with
  | None => Failed
  | Some name =>
      if existsb (endswith name) extensions then SkipDrv
      else
        let '(pname, version) := split_name name in
        match truthy version with
        | None => SkipDrv
        | Some version =>
            Built {| name := name; pname := pname; version := version;
                     patches := match truthy patches with
                                | Some p => p
                                | None => default "" (envVars !! "patches")
                                end |}
        end
  end.

Definition lt `{VersionOrder} (self other : t) : bool :=
  if String.ltb (pname self) (pname other) then true
  else if String.ltb (pname other) (pname self) then false
  else bool_decide (compare_versions (version self) (version other) = -1).

Definition gt `{VersionOrder} (self other : t) : bool :=
  if String.ltb (pname other) (pname self) then true
  else if String.ltb (pname self) (pname other) then true
  else bool_decide (compare_versions (version self) (version other) = 1).

Definition product_candidates (self : t) : list string :=
  let alternative := replace_char "-" "_" (pname self) in
  pname self :: (if decide (alternative ≠ pname self) then [alternative] else []).

Definition applied_patches (self : t) : list string :=
  foldl (λ s m, set_add (upper m) s) [] (R_CVE.finditer (patches self)).

(** The loop of [check] over the remaining candidates, with the set built
    so far; [asked] records the product names passed to [nvd.affected]. *)
Fixpoint check_loop `{VersionPredicates} (self : t) (nvd : Root)
  (patched_cves : list string) (candidates : list string)
  (affected_by : list Vulnerability) (asked : list string) :
  list Vulnerability * list string :=
  match candidates with
  | [] => (affected_by, asked)
  | pname :: candidates =>
      let affected_by :=
        add_if (λ vuln, bool_decide (cve_id vuln ∉ patched_cves))
               affected_by (NVD.affected nvd pname (version self)) in
      let asked := asked ++ [pname] in
      match affected_by with
      | _ :: _ => (affected_by, asked)
      | [] => check_loop self nvd patched_cves candidates affected_by asked
      end
  end.

Definition check_asking `{VersionPredicates} (self : t) (nvd : Root) :
  list Vulnerability * list string :=
  check_loop self nvd (applied_patches self) (product_candidates self) [] [].

Definition check `{VersionPredicates} (self : t) (nvd : Root) : list Vulnerability :=
  fst (check_asking self nvd).

End Derive.

(** * Notions used in the statements *)

(** How many times [x] occurs in [l]. *)
Definition times `{EqDecision A} (x : A) (l : list A) : nat :=
  length (filter (λ y, y = x) l).

(** The list an index holds for a product, empty when it has none. *)
Definition listed `{VersionPredicates} (bp : gmap string (list Vulnerability))
  (p : string) : list Vulnerability :=
  default [] (bp !! p).

(** The number of nodes of [v] that name the product [p]. *)
Definition mentions `{VersionPredicates} (p : string) (v : Vulnerability) : nat :=
  length (filter (λ n, product n = p) (nodes v)).

(** Every record is stored under its own identifier. *)
Definition keyed `{VersionPredicates} (a : gmap string Vulnerability) : Prop :=
  ∀ k v, a !! k = Some v → cve_id v = k.

(** The loop of [NVD.add] over the items of an archive. *)
Definition ingest `{VersionPredicates} (a : gmap string Vulnerability)
  (its : list (string * Vulnerability)) : gmap string Vulnerability :=
  foldl (λ advisories '(cve_id, adv), <[cve_id := adv]> advisories) a its.

(** What [parse] leaves in the dictionary of an archive. *)
Definition parsed `{VersionPredicates} (arch : Archive.t)
  (raw : list (option Vulnerability)) : list (string * Vulnerability) :=
  Archive.advisories (Archive.parse arch raw).

(** The state with root [r] in which nothing has been requested yet. *)
Definition at_root `{VersionPredicates} (r : Root) : State :=
  {| root := r; fetched := [] |}.

(** The root after ingesting the archive [a1] with items [raw1], then the
    archive [a2] with items [raw2], and rebuilding the index. *)
Definition reingest `{VersionPredicates} (r : Root)
  (a1 : ArchiveName) (raw1 : list (option Vulnerability))
  (a2 : ArchiveName) (raw2 : list (option Vulnerability)) : Root :=
  root (snd ((NVD.add (Archive.parse (Archive.__init__ a1) raw1) ;;;
              NVD.add (Archive.parse (Archive.__init__ a2) raw2) ;;;
              NVD.reindex) (at_root r))).

(** The root [r] after [reindex]. *)
Definition reindexed `{VersionPredicates} (r : Root) : Root :=
  root (snd (NVD.reindex (at_root r))).

(** The matches of a product name for the version of [self] whose
    identifier is not among the patched ones. *)
Definition unremediated `{VersionPredicates} (self : Derive.t) (nvd : Root)
  (pname : string) : list Vulnerability :=
  filter (λ v, cve_id v ∉ Derive.applied_patches self)
         (NVD.affected nvd pname (Derive.version self)).

(** The CVE identifier pattern on a whole text: the letters CVE in either
    case, a dash, four digits, a dash, one or more digits. *)
Definition is_cve_id (m : list ascii) : bool :=
  match m with
  | c :: v :: e :: d1 :: y1 :: y2 :: y3 :: y4 :: d2 :: n :: ds =>
      R_CVE.letter "c" c && R_CVE.letter "v" v && R_CVE.letter "e" e
      && R_CVE.dash d1
      && is_digit y1 && is_digit y2 && is_digit y3 && is_digit y4
      && R_CVE.dash d2 && is_digit n && forallb is_digit ds
  | _ => false
  end.

(** The text begins with a digit. *)
Definition starts_with_digit (s : list ascii) : bool :=
  match s with
  | d :: _ => is_digit d
  | [] => false
  end.

(** The name as [split_name] normalises it: in lower case and without a
    final [.drv]. *)
Definition normalised (fullname : string) : string :=
  let fullname := lower fullname in
  if endswith fullname ".drv" then drop_last 4 fullname else fullname.

(** Following the words of the spec: the split of a text at its first dash
    that is followed by a digit. *)
Fixpoint split_at_dash_digit (s : list ascii) : option (list ascii * list ascii) :=
  match s with
  | [] => None
  | c :: s' =>
      if R_CVE.dash c && starts_with_digit s' then Some ([], s')
      else '(p, v) ← split_at_dash_digit s'; Some (c :: p, v)
  end.

Definition spec_split_name (fullname : string) : string * option string :=
  match split_at_dash_digit (chars (normalised fullname)) with
  | Some (p, v) => (str p, Some (str v))
  | None => (normalised fullname, None)
  end.

(** The split at the first dash that is followed by a digit and is not the
    first character of the name. *)
Definition split_name_inside (fullname : string) : string * option string :=
  match chars (normalised fullname) with
  | [] => (normalised fullname, None)
  | c :: s =>
      match split_at_dash_digit s with
      | Some (p, v) => (str (c :: p), Some (str v))
      | None => (normalised fullname, None)
      end
  end.

(** The text begins with a dash followed by a digit. *)
Definition starts_with_dash_digit (s : list ascii) : bool :=
  match s with
  | c :: s' => R_CVE.dash c && starts_with_digit s'
  | [] => false
  end.

(** The URL of a feed segment. *)
Definition url `{VersionPredicates} (self : NVD.t) (a : ArchiveName) : string :=
  NVD.mirror self +:+ Archive.download_uri (Archive.__init__ a).

(** A response on which [download] raises before parsing: none at all, or
    a client or server error status. *)
Definition failing `{VersionPredicates} (r : Response) : bool :=
  match r with
  | NoResponse => true
  | HTTP status_code _ _ => bool_decide (400 ≤ status_code < 600)
  end.

(** A response with fresh content. *)
Definition fresh `{VersionPredicates} (r : Response) : bool :=
  match r with
  | NoResponse => false
  | HTTP status_code _ _ => bool_decide (status_code = 200)
  end.

(** Consecutive sessions that each run [update], against the network and
    at the time given for each: their outcomes, whether each packed the
    database, and the database left at the end. *)
Fixpoint sessions `{VersionPredicates} (self : NVD.t)
  (runs : list (Network * Z)) (db : DB) : list (Result unit * bool) * DB :=
  match runs with
  | [] => ([], db)
  | (net, now) :: runs =>
      let '(res, packed, db', _) := NVD.session (NVD.update net now self) db in
      let '(log, db'') := sessions self runs db' in
      ((res, packed) :: log, db'')
  end.

Definition clean {A} (res : Result A) : bool :=
  match res with Ok _ => true | Raised _ => false end.

(** The number of clean sessions among the first [n] of a log. *)
Definition clean_among {A} (n : nat) (log : list (Result A * bool)) : Z :=
  Z.of_nat (length (filter (λ e, clean (fst e) = true) (take n log))).

(** The index of a root is the index of its records: a product's list
    holds exactly the stored records with a node naming the product. *)
Definition indexed `{VersionPredicates} (r : Root) : Prop :=
  ∀ p v, v ∈ NVD.by_product r p ↔
         (∃ k, advisory r !! k = Some v) ∧ p ∈ product <$> nodes v.

(** The text is empty or begins with a digit. *)
Definition digit_first (s : string) : Prop :=
  match s with "" => True | String c _ => is_digit c = true end.

(** * Sample data *)

(** Version predicates that name the one version they accept. *)
Definition exact_versions : VersionPredicates :=
  {| VersionPredicate := string; holds := String.eqb |}.

(** A decoder for descriptors without structured attributes. *)
Definition no_json : JsonDecoder := λ _, None.

(** A node that affects one version of a product. *)
Definition node (product version : string) : @Node exact_versions :=
  @Build_Node exact_versions product version.

(** An advisory as first published, and as republished with a second
    affected version of the same product. *)
Definition openssl_old : @Vulnerability exact_versions :=
  @Build_Vulnerability exact_versions "CVE-2020-0001" [node "openssl" "1.0.1"].

Definition openssl_new : @Vulnerability exact_versions :=
  @Build_Vulnerability exact_versions "CVE-2020-0001"
    [node "openssl" "1.0.1"; node "openssl" "1.0.2"].

(** A store that holds the given records, indexed. *)
Definition store (vs : list (@Vulnerability exact_versions)) : @Root exact_versions :=
  @reindexed exact_versions
    (@set_advisory exact_versions (@Root_empty exact_versions)
       (list_to_map ((λ v, (@cve_id exact_versions v, v)) <$> vs))).

Definition cve_2021_1234 : @Vulnerability exact_versions :=
  @Build_Vulnerability exact_versions "CVE-2021-1234" [node "openssl" "1.0.1"].

Definition cve_2019_0001 : @Vulnerability exact_versions :=
  @Build_Vulnerability exact_versions "CVE-2019-0001" [node "foo_bar" "1.0"].

(** [openssl-1.0.1] built with the patch for another CVE whose number
    begins with the digits of CVE-2021-1234, and built with the patch for
    CVE-2021-1234 itself. *)
Definition openssl_other_patch : Derive.t :=
  {| Derive.name := "openssl-1.0.1"; Derive.pname := "openssl";
     Derive.version := "1.0.1"; Derive.patches := "CVE-2021-12345.patch" |}.

Definition openssl_patched : Derive.t :=
  {| Derive.name := "openssl-1.0.1"; Derive.pname := "openssl";
     Derive.version := "1.0.1"; Derive.patches := "fix-cve-2021-1234.patch" |}.

Definition foo_bar : Derive.t :=
  {| Derive.name := "foo-bar-1.0"; Derive.pname := "foo-bar";
     Derive.version := "1.0"; Derive.patches := "" |}.

(** A mirror that serves every segment with one record under the
    validator v1, and answers a request that carries this validator with
    304. *)
Definition feed_server : @Network exact_versions :=
  λ _ headers,
    if decide (headers !! "If-None-Match" = Some "v1")
    then @HTTP exact_versions 304 ∅ None
    else @HTTP exact_versions 200 {[ "etag" := "v1" ]} (Some [Some openssl_new]).

(** The same mirror with an internal error on the segment of 2016. *)
Definition broken_2016 : @Network exact_versions :=
  λ u headers,
    if decide (u = "https://nvd.example/nvdcve-1.1-2016.json.gz")
    then @HTTP exact_versions 500 ∅ None
    else feed_server u headers.

Definition nvd_2021 : NVD.t := NVD.__init__ "https://nvd.example/" 2021.

Definition empty_db : @DB exact_versions := @Build_DB exact_versions [].

(** 2021-05-03 00:00:00, in seconds. *)
Definition t0 : Z := 1620000000.

(** The first synchronisation of an empty database, and the database it
    leaves. *)
Definition first_sync :=
  @NVD.session exact_versions unit (NVD.update feed_server t0 nvd_2021) empty_db.

Definition db_synced : @DB exact_versions := first_sync.1.2.

(** Twenty-six sessions in a row, the first of which synchronises. *)
Definition twenty_six : list (@Network exact_versions * Z) :=
  replicate 26 (feed_server, t0).

(** A comparator for the examples: versions compared by their length. *)
Definition by_length : VersionOrder :=
  λ a b, Z.sgn (Z.of_nat (String.length a) - Z.of_nat (String.length b)).

Definition openssl_1 : Derive.t :=
  {| Derive.name := "openssl-1"; Derive.pname := "openssl";
     Derive.version := "1"; Derive.patches := "" |}.

Definition openssl_10 : Derive.t :=
  {| Derive.name := "openssl-10"; Derive.pname := "openssl";
     Derive.version := "10"; Derive.patches := "" |}.

Definition zlib_1 : Derive.t :=
  {| Derive.name := "zlib-1"; Derive.pname := "zlib";
     Derive.version := "1"; Derive.patches := "" |}.

(** A mirror without validators: every segment comes with status 200 and
    the one record. *)
Definition plain_server : @Network exact_versions :=
  λ _ _, @HTTP exact_versions 200 ∅ (Some [Some openssl_old; None; Some openssl_new]).

(** Two parsed archives without an identifier in common. *)
Definition archive_2019 : @Archive.t exact_versions :=
  Archive.parse (Archive.__init__ (Year 2019)) [Some cve_2019_0001].

Definition archive_2021 : @Archive.t exact_versions :=
  Archive.parse (Archive.__init__ (Year 2021)) [Some cve_2021_1234].

Definition empty_root : @Root exact_versions := @Root_empty exact_versions.

(** A root that holds one record and no index yet. *)
Definition one_record : @Root exact_versions :=
  @set_advisory exact_versions (@Root_empty exact_versions)
    {[ "CVE-2020-0001" := openssl_new ]}.

(** * Properties *)

(** ** ASCII text and header names *)

Lemma ascii_text_check (s : string) :
  forallb is_ascii (chars s) = true → ascii_text s.
Proof.
  unfold ascii_text. induction (chars s) as [|c l IH]; simpl; [constructor|].
  intros [Hc Hl]%andb_prop. constructor; auto.
Qed.

Lemma lower_char_idemp c : lower_char (lower_char c) = lower_char c.
Proof. by destruct c as [[] [] [] [] [] [] [] []]. Qed.

Lemma lower_idemp (s : string) : lower (lower s) = lower s.
Proof.
  unfold lower. rewrite list_ascii_of_string_of_list_ascii, map_map.
  f_equal. apply map_ext. intros c. apply lower_char_idemp.
Qed.

Lemma lower_upper_char c : lower_char (upper_char c) = lower_char c.
Proof. by destruct c as [[] [] [] [] [] [] [] []]. Qed.

Lemma lower_upper (s : string) : lower (upper s) = lower s.
Proof.
  unfold lower, upper. rewrite list_ascii_of_string_of_list_ascii, map_map.
  f_equal. apply map_ext. intros c. apply lower_upper_char.
Qed.

(** A lookup in the response headers does not see the case of the name it
    is given. *)
Lemma ci_get_ignores_case (store : gmap string string) (key : string) :
  ci_get store (lower key) = ci_get store key ∧
  ci_get store (upper key) = ci_get store key.
Proof. unfold ci_get. by rewrite lower_idemp, lower_upper. Qed.

(** ** Sets built by repeated [add] *)

Section python_sets.
Context `{EqDecision A}.
Implicit Types (x : A) (s l : list A).

Lemma set_add_elem x y s : y ∈ set_add x s ↔ y = x ∨ y ∈ s.
Proof.
  unfold set_add. case_decide as Hx.
  - split; [auto|]. intros [->|]; auto.
  - rewrite elem_of_app, list_elem_of_singleton. tauto.
Qed.

Lemma set_add_NoDup x s : NoDup s → NoDup (set_add x s).
Proof.
  intros Hs. unfold set_add. case_decide as Hx; [done|].
  apply NoDup_app. split_and!; [done| |apply NoDup_singleton].
  intros y Hy ->%list_elem_of_singleton. done.
Qed.

Lemma add_if_NoDup p l s : NoDup s → NoDup (add_if p s l).
Proof.
  revert s. induction l as [|x l IH]; intros s Hs; simpl; [done|].
  apply IH. destruct (p x); auto using set_add_NoDup.
Qed.

Lemma add_if_elem p l s y : y ∈ add_if p s l ↔ y ∈ s ∨ (y ∈ l ∧ p y = true).
Proof.
  revert s. induction l as [|x l IH]; intros s; simpl.
  - rewrite elem_of_nil. tauto.
  - rewrite IH, elem_of_cons. destruct (p x) eqn:Hp.
    + rewrite set_add_elem. split.
      * intros [[->|?]|[? ?]]; auto.
      * intros [?|[[->|?] ?]]; auto.
    + split.
      * intros [?|[? ?]]; auto.
      * intros [?|[[->|?] ?]]; auto. congruence.
Qed.

(** On a duplicate-free input the loop is a filter. *)
Lemma add_if_filter p l s :
  NoDup (s ++ l) → add_if p s l = s ++ filter (λ x, p x = true) l.
Proof.
  revert s. induction l as [|x l IH]; intros s Hs; simpl.
  - by rewrite app_nil_r.
  - assert (x ∉ s) as Hx.
    { apply NoDup_app in Hs as (_ & Hs & _). intros ?. eapply Hs; [done|]. left. }
    assert (NoDup ((s ++ [x]) ++ l)) as Hs' by (by rewrite <- app_assoc).
    rewrite filter_cons. destruct (p x) eqn:Hp.
    + rewrite decide_True by done. unfold set_add. rewrite decide_False by done.
      rewrite IH by done. by rewrite <- app_assoc.
    + rewrite decide_False by congruence. apply IH.
      apply NoDup_app in Hs as (? & Hd & Hl). apply NoDup_cons in Hl as [??].
      apply NoDup_app. split_and!; [done| |done].
      intros y Hy Hyl. eapply Hd; [done|]. by right.
Qed.

Lemma times_app x l1 l2 : times x (l1 ++ l2) = (times x l1 + times x l2)%nat.
Proof. unfold times. by rewrite filter_app, length_app. Qed.

Lemma times_cons x y l :
  times x (y :: l) = ((if decide (y = x) then 1 else 0) + times x l)%nat.
Proof. unfold times. rewrite filter_cons. by case_decide. Qed.

Lemma times_replicate x y n :
  times x (replicate n y) = if decide (y = x) then n else 0%nat.
Proof.
  induction n as [|n IH]; simpl; [by case_decide|].
  rewrite times_cons, IH. by case_decide.
Qed.

Lemma times_not_elem x l : x ∉ l → times x l = 0%nat.
Proof.
  induction l as [|y l IH]; [done|]. rewrite not_elem_of_cons, times_cons.
  intros [??]. rewrite decide_False by done. auto.
Qed.

Lemma times_pos_elem x l : (0 < times x l)%nat ↔ x ∈ l.
Proof.
  split.
  - intros Hpos. destruct (decide (x ∈ l)) as [|Hn]; [done|].
    rewrite (times_not_elem _ _ Hn) in Hpos. lia.
  - induction l as [|y l IH]; [by rewrite elem_of_nil|].
    rewrite elem_of_cons, times_cons. intros [->|?].
    + rewrite decide_True by done. lia.
    + specialize (IH ltac:(done)). lia.
Qed.

Lemma times_NoDup x l : NoDup l → x ∈ l → times x l = 1%nat.
Proof.
  induction 1 as [|y l Hy Hl IH]; [by rewrite elem_of_nil|].
  rewrite elem_of_cons, times_cons. intros [->|Hx].
  - rewrite decide_True by done. by rewrite times_not_elem.
  - rewrite decide_False by (intros ->; done). auto.
Qed.

Lemma NoDup_times l : NoDup l ↔ ∀ x, (times x l ≤ 1)%nat.
Proof.
  split.
  - intros Hl x. destruct (decide (x ∈ l)).
    + by rewrite times_NoDup.
    + rewrite times_not_elem by done. lia.
  - induction l as [|y l IH]; intros Hc; [constructor|].
    constructor.
    + intros Hy%times_pos_elem. specialize (Hc y).
      rewrite times_cons, decide_True in Hc by done. lia.
    + apply IH. intros x. specialize (Hc x). rewrite times_cons in Hc. lia.
Qed.

End python_sets.

(** ** The product index *)

Section index.
Context `{VP : VersionPredicates}.
Implicit Types (r : Root) (v vuln : Vulnerability) (bp : gmap string (list Vulnerability)).

Lemma affected_NoDup r pname version : NoDup (NVD.affected r pname version).
Proof. apply add_if_NoDup, NoDup_nil_2. Qed.

Lemma affected_elem r pname version v :
  v ∈ NVD.affected r pname version ↔
  v ∈ NVD.by_product r pname ∧ Vulnerability_match v pname version = true.
Proof. unfold NVD.affected. rewrite add_if_elem, elem_of_nil. tauto. Qed.

Lemma by_product_listed r p : NVD.by_product r p = listed (by_product r) p.
Proof. unfold NVD.by_product, listed. by destruct (_ !! _). Qed.

Lemma mentions_pos p v : (0 < mentions p v)%nat ↔ p ∈ product <$> nodes v.
Proof.
  unfold mentions. induction (nodes v) as [|n l IH]; simpl.
  - rewrite elem_of_nil. lia.
  - rewrite filter_cons, elem_of_cons. case_decide; simpl.
    + split; [auto|lia].
    + rewrite IH. split; [auto|]. intros [?|?]; [congruence|done].
Qed.

Lemma listed_insert bp q l p :
  listed (<[q := l]> bp) p = if decide (q = p) then l else listed bp p.
Proof.
  unfold listed. case_decide as Hq.
  - subst. by rewrite lookup_insert_eq.
  - by rewrite lookup_insert_ne.
Qed.

Lemma index_product_listed bp v prods p :
  listed (foldl (λ bp prod,
           let bp := if decide (bp !! prod = None) then <[prod := []]> bp else bp in
           <[prod := default [] (bp !! prod) ++ [v]]> bp) bp prods) p =
  listed bp p ++ replicate (length (filter (λ q, q = p) prods)) v.
Proof.
  revert bp. induction prods as [|q prods IH]; intros bp; simpl.
  - by rewrite app_nil_r.
  - rewrite IH, filter_cons, listed_insert.
    destruct (decide (q = p)) as [->|Hq].
    + simpl. rewrite <- app_assoc. f_equal.
      unfold listed. case_decide as Hb; [by rewrite lookup_insert_eq, Hb|done].
    + f_equal. case_decide; [|done].
      rewrite listed_insert. by rewrite decide_False.
Qed.

Lemma index_vuln_listed bp v p :
  listed (NVD.index_vuln bp v) p = listed bp p ++ replicate (mentions p v) v.
Proof.
  unfold NVD.index_vuln. rewrite index_product_listed. do 2 f_equal.
  unfold mentions. induction (nodes v) as [|n l IH]; [done|].
  rewrite fmap_cons, !filter_cons. repeat case_decide; simpl; congruence.
Qed.

Lemma index_all_listed bp vs p :
  listed (foldl NVD.index_vuln bp vs) p =
  listed bp p ++ mjoin ((λ v, replicate (mentions p v) v) <$> vs).
Proof.
  revert bp. induction vs as [|v vs IH]; intros bp; simpl.
  - by rewrite app_nil_r.
  - by rewrite IH, index_vuln_listed, <- app_assoc.
Qed.

(** [values] lists exactly the stored values, one per key. *)
Lemma values_Permutation {V} (tree : gmap string V) :
  NVD.values tree ≡ₚ snd <$> map_to_list tree.
Proof. unfold NVD.values. by rewrite merge_sort_Permutation. Qed.

Lemma values_elem {V} (tree : gmap string V) x :
  x ∈ NVD.values tree ↔ ∃ k, tree !! k = Some x.
Proof.
  rewrite values_Permutation, list_elem_of_fmap. split.
  - intros ([k y] & -> & Hk%elem_of_map_to_list). eauto.
  - intros [k Hk]. exists (k, x). by rewrite elem_of_map_to_list.
Qed.

Lemma values_keyed_NoDup a : keyed a → NoDup (NVD.values a).
Proof.
  intros Hk. rewrite values_Permutation.
  apply (NoDup_fmap_1 cve_id). rewrite <- list_fmap_compose.
  rewrite (list_fmap_ext (cve_id ∘ snd) fst (map_to_list a)).
  - apply NoDup_fst_map_to_list.
  - intros i [k v] Hi. simpl. apply Hk.
    apply elem_of_map_to_list. eapply list_elem_of_lookup_2. exact Hi.
Qed.

Lemma times_mjoin_replicate (f : Vulnerability → nat) v vs :
  times v (mjoin ((λ w, replicate (f w) w) <$> vs)) = (times v vs * f v)%nat.
Proof.
  induction vs as [|w vs IH]; [done|].
  rewrite fmap_cons, times_cons. simpl. rewrite times_app, times_replicate, IH.
  case_decide; subst; lia.
Qed.

End index.

(** ** Ingestion *)

Section ingestion.
Context `{VP : VersionPredicates}.
Implicit Types (r : Root) (v w : Vulnerability) (a : gmap string Vulnerability)
  (d : list (string * Vulnerability)) (raw : list (option Vulnerability)).

Lemma dict_get_set {V} k k' (x : V) (d : list (string * V)) :
  dict_get k (dict_set k' x d) = if decide (k' = k) then Some x else dict_get k d.
Proof.
  induction d as [|[k0 x0] d IH]; simpl.
  - by case_decide.
  - destruct (decide (k0 = k')) as [->|Hk0]; simpl.
    + by case_decide.
    + rewrite IH. repeat case_decide; congruence.
Qed.

Lemma dict_set_keys {V} k (x : V) (d : list (string * V)) :
  NoDup d.*1 → NoDup (dict_set k x d).*1 ∧ ∀ k', k' ∈ (dict_set k x d).*1 → k' = k ∨ k' ∈ d.*1.
Proof.
  induction d as [|[k0 x0] d IH]; simpl.
  - intros _. split; [apply NoDup_singleton|].
    intros k' ->%list_elem_of_singleton. by left.
  - intros [Hk0 Hd]%NoDup_cons. destruct (IH Hd) as [IH1 IH2].
    case_decide as Hk; simpl; subst.
    + split; [by constructor|]. intros k'. rewrite !elem_of_cons. tauto.
    + split.
      * constructor; [|done]. intros [->|?]%IH2; done.
      * intros k'. rewrite !elem_of_cons. intros [->|[->|?]%IH2]; auto.
Qed.

Lemma dict_get_None {V} k (d : list (string * V)) : k ∉ d.*1 → dict_get k d = None.
Proof.
  induction d as [|[k0 x0] d IH]; simpl; [done|].
  rewrite not_elem_of_cons. intros [??]. rewrite decide_False by done. auto.
Qed.

Lemma ingest_lookup a d k :
  NoDup d.*1 →
  ingest a d !! k = match dict_get k d with Some v => Some v | None => a !! k end.
Proof.
  revert a. induction d as [|[k0 v0] d IH]; intros a; simpl; [done|].
  intros [Hk0 Hd]%NoDup_cons. unfold ingest in *. simpl. rewrite IH by done.
  case_decide as Hk; subst.
  - by rewrite dict_get_None, lookup_insert_eq.
  - by rewrite lookup_insert_ne.
Qed.

Lemma parsed_snoc arch raw it :
  parsed arch (raw ++ [it]) =
  match it with
  | Some v => dict_set (cve_id v) v (parsed arch raw)
  | None => parsed arch raw
  end.
Proof. unfold parsed, Archive.parse. simpl. by rewrite foldl_app. Qed.

Lemma parsed_wf arch raw :
  NoDup (Archive.advisories arch).*1 →
  (∀ k v, dict_get k (Archive.advisories arch) = Some v → cve_id v = k) →
  NoDup (parsed arch raw).*1 ∧
  ∀ k v, dict_get k (parsed arch raw) = Some v → cve_id v = k.
Proof.
  intros Hnd Hkey. induction raw as [|it raw IH] using rev_ind; [done|].
  rewrite parsed_snoc. destruct it as [w|]; [|done]. destruct IH as [IH1 IH2].
  split; [by apply dict_set_keys|].
  intros k v. rewrite dict_get_set. case_decide; [congruence|auto].
Qed.

Lemma parsed_init_wf name raw :
  NoDup (parsed (Archive.__init__ name) raw).*1 ∧
  ∀ k v, dict_get k (parsed (Archive.__init__ name) raw) = Some v → cve_id v = k.
Proof. apply parsed_wf; [apply NoDup_nil_2|done]. Qed.

(** The last item with a given identifier is the one [parse] keeps. *)
Lemma parsed_last arch pre post v :
  Forall (λ it, ∀ w, it = Some w → cve_id w ≠ cve_id v) post →
  dict_get (cve_id v) (parsed arch (pre ++ Some v :: post)) = Some v.
Proof.
  induction post as [|it post IH] using rev_ind; intros Hpost.
  - rewrite parsed_snoc, dict_get_set. by rewrite decide_True.
  - apply Forall_app in Hpost as [Hpost Hit].
    apply Forall_inv in Hit.
    replace (pre ++ Some v :: post ++ [it]) with ((pre ++ Some v :: post) ++ [it])
      by (by rewrite <- app_assoc).
    rewrite parsed_snoc. destruct it as [w|]; [|auto].
    rewrite dict_get_set, decide_False by (by apply Hit). auto.
Qed.

Lemma add_run archive st :
  NVD.add archive st =
  (Ok tt, {| root := set_advisory (root st)
                       (ingest (advisory (root st)) (Archive.items archive));
             fetched := fetched st |}).
Proof. reflexivity. Qed.

Lemma reindex_run st :
  NVD.reindex st =
  (Ok tt, {| root := set_by_product (root st)
                       (foldl NVD.index_vuln ∅ (NVD.values (advisory (root st))));
             fetched := fetched st |}).
Proof. reflexivity. Qed.

Lemma ingest_parsed_keyed a name raw :
  keyed a → keyed (ingest a (parsed (Archive.__init__ name) raw)).
Proof.
  intros Ha k v. destruct (parsed_init_wf name raw) as [Hnd Hkey].
  rewrite ingest_lookup by done.
  destruct (dict_get _ _) eqn:Hg; [|by apply Ha].
  intros [= ->]. by apply Hkey.
Qed.

(** The index that [reindex] builds, read through [by_product]. *)
Lemma reindexed_by_product r p :
  NVD.by_product (root (NVD.reindex (at_root r)).2) p =
  mjoin ((λ v, replicate (mentions p v) v) <$> NVD.values (advisory r)).
Proof. rewrite by_product_listed. simpl. by rewrite index_all_listed. Qed.

Lemma reindexed_times r p v :
  keyed (advisory r) →
  times v (NVD.by_product (root (NVD.reindex (at_root r)).2) p) =
  if decide (advisory r !! cve_id v = Some v) then mentions p v else 0%nat.
Proof.
  intros Hk. rewrite reindexed_by_product, times_mjoin_replicate.
  case_decide as Hv.
  - rewrite times_NoDup; [lia|by apply values_keyed_NoDup|].
    apply values_elem. eauto.
  - rewrite times_not_elem; [done|].
    intros [k Hkv]%values_elem. apply Hv. by rewrite (Hk _ _ Hkv).
Qed.

End ingestion.

(** ** Re-ingestion and the rebuilt index *)

Section reingestion.
Context `{VP : VersionPredicates}.
Implicit Types (r : Root) (v w : Vulnerability).

Lemma reingest_unfold r a1 raw1 a2 raw2 :
  reingest r a1 raw1 a2 raw2 =
  root (NVD.reindex (at_root (set_advisory r
    (ingest (ingest (advisory r) (parsed (Archive.__init__ a1) raw1))
            (parsed (Archive.__init__ a2) raw2))))).2.
Proof. reflexivity. Qed.

Lemma reindexed_advisory r :
  advisory (root (NVD.reindex (at_root r)).2) = advisory r.
Proof. reflexivity. Qed.

Lemma reindexed_elem r p v :
  keyed (advisory r) →
  v ∈ NVD.by_product (root (NVD.reindex (at_root r)).2) p ↔
  advisory r !! cve_id v = Some v ∧ p ∈ product <$> nodes v.
Proof.
  intros Hk. rewrite <- times_pos_elem, reindexed_times, <- mentions_pos by done.
  case_decide; [tauto|]. split; [lia|tauto].
Qed.

(** C8, as amended: after two ingestions that bring records with the same
    identifier, the identifier holds the later record only, every record
    sits under its own identifier, and the rebuilt index lists for each
    product exactly the stored records with a node naming it and nothing
    stale: once per such node, so a record is repeated in a product's list
    when, and only when, several of its nodes name that product. *)
Theorem reingest_latest_then_reindex r a1 a2 raw1 pre post v1 v2 :
  keyed (advisory r) →
  Some v1 ∈ raw1 →
  cve_id v1 = cve_id v2 →
  Forall (λ it, ∀ w, it = Some w → cve_id w ≠ cve_id v2) post →
  let r' := reingest r a1 raw1 a2 (pre ++ Some v2 :: post) in
  NVD.by_id r' (cve_id v1) = Some v2 ∧
  keyed (advisory r') ∧
  (v1 ≠ v2 → ∀ p, v1 ∉ NVD.by_product r' p) ∧
  (∀ p v, v ∈ NVD.by_product r' p ↔
          NVD.by_id r' (cve_id v) = Some v ∧ p ∈ product <$> nodes v) ∧
  (∀ p v, times v (NVD.by_product r' p) =
          if decide (NVD.by_id r' (cve_id v) = Some v) then mentions p v else 0%nat).
Proof.
  intros Hk _ Hid Hpost r'.
  assert (keyed (advisory r')) as Hk'.
  { subst r'. rewrite reingest_unfold, reindexed_advisory. simpl.
    by do 2 apply ingest_parsed_keyed. }
  assert (NVD.by_id r' (cve_id v1) = Some v2) as Hlast.
  { subst r'. unfold NVD.by_id. rewrite reingest_unfold, reindexed_advisory. simpl.
    rewrite ingest_lookup by apply parsed_init_wf.
    by rewrite Hid, parsed_last. }
  assert (∀ p v, v ∈ NVD.by_product r' p ↔
            NVD.by_id r' (cve_id v) = Some v ∧ p ∈ product <$> nodes v) as Helem.
  { intros p v. subst r'. rewrite reingest_unfold in *.
    rewrite reindexed_advisory in Hk'. apply (reindexed_elem _ p v Hk'). }
  split_and!; [done|done| |done|].
  - intros Hne p [Hv1 _]%Helem. rewrite Hlast in Hv1. congruence.
  - intros p v. subst r'. rewrite reingest_unfold in *.
    rewrite reindexed_advisory in Hk'. apply (reindexed_times _ p v Hk').
Qed.

End reingestion.

(** Two ingestions of one advisory into an empty store. *)
Lemma reingest_latest_then_reindex_witness :
  NVD.by_id (reingest Root_empty (Year 2020) [Some openssl_old]
                      modified [Some openssl_new]) "CVE-2020-0001"
  = Some openssl_new.
Proof.
  apply (reingest_latest_then_reindex Root_empty (Year 2020) modified
           [Some openssl_old] [] [] openssl_old openssl_new).
  - intros k v. simpl. rewrite lookup_empty. discriminate.
  - left.
  - reflexivity.
  - constructor.
Defined.

(** C8, as stated, fails: the list the rebuilt index holds for a product
    has a duplicate entry when the stored record names the product in two
    nodes. *)
Lemma reindex_duplicate_entries :
  cve_id openssl_old = cve_id openssl_new ∧
  NVD.by_product (reingest Root_empty (Year 2020) [Some openssl_old]
                           modified [Some openssl_new]) "openssl"
  = [openssl_new; openssl_new] ∧
  ¬ NoDup (NVD.by_product (reingest Root_empty (Year 2020) [Some openssl_old]
                                    modified [Some openssl_new]) "openssl").
Proof.
  assert (NVD.by_product (reingest Root_empty (Year 2020) [Some openssl_old]
                           modified [Some openssl_new]) "openssl"
          = [openssl_new; openssl_new]) as E by (vm_compute; reflexivity).
  split_and!; [reflexivity|exact E|].
  rewrite E. intros Hnd. apply NoDup_cons in Hnd as [Hin _].
  apply Hin. left.
Qed.

(** ** Queries *)

(** C10: the result of [affected] never repeats a record and holds exactly
    the records of the product's index list that match; the index list
    itself, as [by_product] returns it after [reindex], repeats a stored
    record once per node that names the product; and [by_product] answers
    a product without index entry with the empty list. *)
Theorem affected_at_most_once `{VP : VersionPredicates} :
  (∀ (r : Root) pname version,
     NoDup (NVD.affected r pname version) ∧
     ∀ v, v ∈ NVD.affected r pname version ↔
          v ∈ NVD.by_product r pname ∧ Vulnerability_match v pname version = true) ∧
  (∀ (r : Root) p v,
     keyed (advisory r) →
     times v (NVD.by_product (reindexed r) p) =
     if decide (NVD.by_id r (cve_id v) = Some v) then mentions p v else 0%nat) ∧
  (∀ (r : Root) p, by_product r !! p = None → NVD.by_product r p = []).
Proof.
  split_and!.
  - intros r pname version. split; [apply affected_NoDup|].
    intros v. apply affected_elem.
  - intros r p v Hk. by apply reindexed_times.
  - intros r p Hp. unfold NVD.by_product. by rewrite Hp.
Qed.

(** One stored record with two nodes for the same product: twice in the
    index list, once in the result of [affected]. *)
Lemma affected_at_most_once_witness :
  let r := set_advisory Root_empty {[ "CVE-2020-0001" := openssl_new ]} in
  times openssl_new (NVD.by_product (reindexed r) "openssl") = 2%nat ∧
  NoDup (NVD.affected (reindexed r) "openssl" "1.0.2") ∧
  NVD.by_product (reindexed r) "gnutls" = [].
Proof.
  intros r. split_and!.
  - rewrite (proj1 (proj2 affected_at_most_once) r "openssl" openssl_new).
    + vm_compute. reflexivity.
    + intros k v. subst r. simpl. intros [<- <-]%lookup_singleton_Some. reflexivity.
  - apply (proj1 affected_at_most_once (reindexed r) "openssl" "1.0.2").
  - apply (proj2 (proj2 affected_at_most_once) (reindexed r) "gnutls").
    vm_compute. reflexivity.
Defined.

(** ** Scanning the patch text *)

Section scanning.
Implicit Types (s m pre post rest : list ascii) (c x : ascii) (self : Derive.t).

Lemma span_spec (p : ascii → bool) s w r :
  span p s = (w, r) →
  s = w ++ r ∧ Forall (λ x, p x = true) w ∧ (∀ x r', r = x :: r' → p x = false).
Proof.
  revert w r. induction s as [|c s IH]; intros w r; simpl.
  - intros [= <- <-]. split_and!; [done|constructor|discriminate].
  - destruct (p c) eqn:Hc.
    + destruct (span p s) as [w' r'] eqn:Hs. intros [= <- <-].
      destruct (IH _ _ eq_refl) as (-> & Hw & Hr).
      split_and!; [done|by constructor|done].
    + intros [= <- <-]. split_and!; [done|constructor|].
      intros x r' [= <- <-]. done.
Qed.

Lemma span_all (p : ascii → bool) w r :
  Forall (λ x, p x = true) w → (∀ x r', r = x :: r' → p x = false) →
  span p (w ++ r) = (w, r).
Proof.
  intros Hw Hr. induction Hw as [|x w Hx Hw IH]; simpl.
  - destruct r as [|x r']; [done|]. simpl. by rewrite (Hr x r').
  - by rewrite Hx, IH.
Qed.

Lemma digit_not_c x : is_digit x = true → R_CVE.letter "c" x = false.
Proof. destruct x as [[] [] [] [] [] [] [] []]; vm_compute; congruence. Qed.

Lemma dash_not_c x : R_CVE.dash x = true → R_CVE.letter "c" x = false.
Proof. destruct x as [[] [] [] [] [] [] [] []]; vm_compute; congruence. Qed.

Lemma other_letter_not_c (l : ascii) x :
  l ≠ "c"%char → R_CVE.letter l x = true → R_CVE.letter "c" x = false.
Proof.
  unfold R_CVE.letter. rewrite bool_decide_eq_true, bool_decide_eq_false. congruence.
Qed.

(** A match at the head of [s] is a prefix of [s], begins with the letter
    C, and holds no other C. *)
Lemma match_at_shape s m rest :
  R_CVE.match_at s = Some (m, rest) →
  s = m ++ rest ∧
  ∃ c m', m = c :: m' ∧ R_CVE.letter "c" c = true ∧
          Forall (λ x, R_CVE.letter "c" x = false) m'.
Proof.
  unfold R_CVE.match_at.
  destruct s as [|c [|v [|e [|d1 [|y1 [|y2 [|y3 [|y4 [|d2 [|n s']]]]]]]]]]; try done.
  destruct (_ && _) eqn:Hb; [|done].
  repeat (apply andb_true_iff in Hb as [Hb ?]).
  destruct (span is_digit s') as [ds r] eqn:Hs. intros [= <- <-].
  destruct (span_spec _ _ _ _ Hs) as (-> & Hds & _).
  split; [done|]. eexists _, _. split_and!; [reflexivity|done|].
  constructor; [by apply (other_letter_not_c "v")|].
  constructor; [by apply (other_letter_not_c "e")|].
  repeat (constructor; [first [by apply digit_not_c | by apply dash_not_c]|]).
  eapply Forall_impl; [exact Hds|]. eauto using digit_not_c.
Qed.

(** A text that matches the pattern in full and is not followed by a digit
    is the match found where it starts. *)
Lemma match_at_whole m post :
  is_cve_id m = true → starts_with_digit post = false →
  R_CVE.match_at (m ++ post) = Some (m, post).
Proof.
  unfold is_cve_id.
  destruct m as [|c [|v [|e [|d1 [|y1 [|y2 [|y3 [|y4 [|d2 [|n ds]]]]]]]]]]; try done.
  intros Hb Hpost. apply andb_true_iff in Hb as [Hb Hds]. simpl.
  rewrite Hb, (span_all is_digit ds post); [done| |].
  - apply Forall_forall. intros x Hx%list_elem_of_In.
    by apply (proj1 (forallb_forall _ _) Hds).
  - intros x r' ->. done.
Qed.

Lemma finditer_skip k l1 l2 :
  length l1 = k → R_CVE.finditer_from k (l1 ++ l2) = R_CVE.finditer_from 0 l2.
Proof.
  revert k. induction l1 as [|x l1 IH]; intros k; simpl.
  - intros <-. done.
  - intros <-. by apply IH.
Qed.

(** Every place where the pattern matches with its digit run complete is
    found by the scan. *)
Lemma finditer_finds pre m post :
  is_cve_id m = true → starts_with_digit post = false →
  m ∈ R_CVE.finditer_from 0 (pre ++ m ++ post).
Proof.
  intros Hm Hpost. pose proof (match_at_whole m post Hm Hpost) as Hat.
  destruct (match_at_shape _ _ _ Hat) as (_ & c0 & m0 & -> & Hc0 & _).
  change ((c0 :: m0) ++ post) with (c0 :: m0 ++ post) in *.
  assert (c0 :: m0 ∈ R_CVE.finditer_from 0 (c0 :: m0 ++ post)) as Hhere.
  { cbn [R_CVE.finditer_from]. rewrite Hat. left. }
  remember (length pre) as n eqn:Hn. revert pre Hn.
  induction n as [n IH] using lt_wf_ind. intros [|x pre] Hn; [done|].
  cbn [app R_CVE.finditer_from].
  destruct (R_CVE.match_at (x :: _)) as [[mm rest]|] eqn:Hx.
  - destruct (match_at_shape _ _ _ Hx) as (Heq & c & mm' & -> & _ & Hnc).
    simpl in Heq. injection Heq as _ Heq. right. simpl. rewrite Nat.sub_0_r.
    apply app_eq_inv in Heq as [(k & -> & ->)|(k & -> & Hk)].
    + rewrite <- app_assoc, finditer_skip by done.
      apply (IH (length k)); [|done]. simpl in Hn. rewrite length_app in Hn. lia.
    + destruct k as [|c1 k].
      * rewrite app_nil_r. by rewrite (finditer_skip _ pre) by done.
      * simpl in Hk. injection Hk as <- _.
        apply Forall_app in Hnc as [_ Hnc]. apply Forall_inv in Hnc. congruence.
  - apply (IH (length pre)); [simpl in Hn; lia|done].
Qed.

Lemma applied_patches_elem self (id : string) :
  id ∈ Derive.applied_patches self ↔
  ∃ t, t ∈ R_CVE.finditer (Derive.patches self) ∧ id = upper t.
Proof.
  unfold Derive.applied_patches.
  assert (∀ l acc, id ∈ foldl (λ a t, set_add (upper t) a) acc l ↔
                   id ∈ acc ∨ ∃ t, t ∈ l ∧ id = upper t) as Hgen.
  { induction l as [|t l IH]; intros acc; simpl.
    - split; [auto|]. intros [?|(t & []%elem_of_nil & _)]. done.
    - rewrite IH, set_add_elem. split.
      + intros [[->|?]|(t' & ? & ->)]; [right|auto|right].
        * exists t. split; [left|done].
        * exists t'. split; [by right|done].
      + intros [?|(t' & [->|?]%elem_of_cons & ->)]; [auto|auto|].
        right. by exists t'. }
  rewrite Hgen, elem_of_nil. split; [intros [[]|?]; done|auto].
Qed.

End scanning.

(** ** The matching engine *)

Section matching.
Context `{VP : VersionPredicates}.
Implicit Types (self : Derive.t) (nvd : Root) (v : Vulnerability).

Lemma unremediated_add_if self nvd pname :
  add_if (λ vuln, bool_decide (cve_id vuln ∉ Derive.applied_patches self)) []
         (NVD.affected nvd pname (Derive.version self))
  = unremediated self nvd pname.
Proof.
  rewrite add_if_filter by apply affected_NoDup. simpl.
  apply list_filter_iff. intros v. by rewrite bool_decide_eq_true.
Qed.

(** The two rounds of the loop of [check], in closed form. *)
Lemma check_asking_cases self nvd :
  let p := Derive.pname self in
  let alt := replace_char "-" "_" p in
  Derive.check_asking self nvd =
  match unremediated self nvd p with
  | _ :: _ => (unremediated self nvd p, [p])
  | [] => if decide (alt ≠ p) then (unremediated self nvd alt, [p; alt])
          else ([], [p])
  end.
Proof.
  intros p alt.
  unfold Derive.check_asking, Derive.product_candidates. fold p alt.
  cbn [Derive.check_loop]. rewrite unremediated_add_if. fold p.
  destruct (unremediated self nvd p) as [|w l]; [|done].
  case_decide; [|done].
  cbn [Derive.check_loop]. rewrite unremediated_add_if.
  by destruct (unremediated self nvd alt).
Qed.

(** C2: the candidates are the product name and then, only if it differs,
    the name with dashes turned into underscores; [check] returns the
    unremediated matches of the first candidate that has any and asks for
    no candidate after it; its result is never a mix of two candidates,
    and it is empty when no candidate has an unremediated match. *)
Theorem check_first_matching_candidate self nvd :
  let p := Derive.pname self in
  let alt := replace_char "-" "_" p in
  Derive.product_candidates self = p :: (if decide (alt ≠ p) then [alt] else []) ∧
  (unremediated self nvd p ≠ [] →
     Derive.check_asking self nvd = (unremediated self nvd p, [p])) ∧
  (unremediated self nvd p = [] → alt ≠ p →
     Derive.check_asking self nvd = (unremediated self nvd alt, [p; alt])) ∧
  (unremediated self nvd p = [] → alt = p →
     Derive.check_asking self nvd = ([], [p])).
Proof.
  intros p alt. split; [reflexivity|].
  pose proof (check_asking_cases self nvd) as Hc. cbv zeta in Hc. fold p alt in Hc.
  rewrite Hc. split_and!.
  - intros Hne. by destruct (unremediated self nvd p).
  - intros -> Halt. by rewrite decide_True.
  - intros -> Halt. by rewrite decide_False by (intros ?; done).
Qed.

Lemma check_unremediated self nvd v :
  v ∈ Derive.check self nvd →
  ∃ pname, pname ∈ Derive.product_candidates self ∧ v ∈ unremediated self nvd pname.
Proof.
  unfold Derive.check. rewrite check_asking_cases. cbv zeta.
  unfold Derive.product_candidates.
  destruct (unremediated self nvd (Derive.pname self)) as [|w l] eqn:Hu.
  - case_decide as Halt.
    + simpl. intros Hv. eexists. split; [|exact Hv]. right. left.
    + simpl. by intros ?%elem_of_nil.
  - simpl. intros Hv. eexists. split; [left|]. by rewrite Hu.
Qed.

Lemma finditer_elem (t : string) pre m post :
  chars t = pre ++ m ++ post →
  is_cve_id m = true → starts_with_digit post = false →
  str m ∈ R_CVE.finditer t.
Proof.
  intros Ht Hm Hpost. unfold R_CVE.finditer. rewrite Ht.
  apply list_elem_of_fmap_2. by apply finditer_finds.
Qed.

(** C1, as amended: where the patch text is ASCII text and holds a CVE
    identifier that is not followed by a further digit, no vulnerability in
    the result of [check] carries that identifier in upper case, whatever
    its nodes match. *)
Theorem patched_cve_not_reported self nvd pre m post :
  ascii_text (Derive.patches self) →
  chars (Derive.patches self) = pre ++ m ++ post →
  is_cve_id m = true →
  starts_with_digit post = false →
  Forall (λ v, cve_id v ≠ upper (str m)) (Derive.check self nvd).
Proof.
  intros _ Ht Hm Hpost. apply Forall_forall. intros v Hv Hid.
  apply check_unremediated in Hv as (pname & _ & Hv).
  apply list_elem_of_filter in Hv as [Hnot _]. apply Hnot.
  apply applied_patches_elem. exists (str m). split; [|done].
  by eapply finditer_elem.
Qed.

End matching.

(** The patch for CVE-2021-1234, named in lower case in a file name. *)
Lemma patched_cve_not_reported_witness :
  Forall (λ v, cve_id v ≠ "CVE-2021-1234")
         (Derive.check openssl_patched (store [cve_2021_1234; openssl_new])).
Proof.
  apply (patched_cve_not_reported openssl_patched
           (store [cve_2021_1234; openssl_new])
           (chars "fix-") (chars "cve-2021-1234") (chars ".patch"));
    [by apply ascii_text_check | reflexivity..].
Defined.

(** C1, as stated, fails: the patch text CVE-2021-12345.patch contains
    the text CVE-2021-1234, which matches the pattern, and the
    vulnerability CVE-2021-1234 is reported all the same. *)
Lemma patched_substring_still_reported :
  chars (Derive.patches openssl_other_patch)
    = [] ++ chars "CVE-2021-1234" ++ chars "5.patch" ∧
  is_cve_id (chars "CVE-2021-1234") = true ∧
  Derive.check openssl_other_patch (store [cve_2021_1234]) = [cve_2021_1234] ∧
  ¬ Forall (λ v, cve_id v ≠ upper "CVE-2021-1234")
           (Derive.check openssl_other_patch (store [cve_2021_1234])).
Proof.
  assert (Derive.check openssl_other_patch (store [cve_2021_1234])
          = [cve_2021_1234]) as E by (vm_compute; reflexivity).
  split_and!; [reflexivity|reflexivity|exact E|].
  rewrite E. intros Hall. apply Forall_inv in Hall. apply Hall. reflexivity.
Qed.

(** The product foo-bar has no match under its own name and one under
    foo_bar. *)
Lemma check_first_matching_candidate_witness :
  Derive.check_asking foo_bar (store [cve_2019_0001])
  = (unremediated foo_bar (store [cve_2019_0001]) "foo_bar", ["foo-bar"; "foo_bar"]).
Proof.
  apply (proj1 (proj2 (proj2
           (check_first_matching_candidate foo_bar (store [cve_2019_0001]))))).
  - vm_compute. reflexivity.
  - vm_compute. discriminate.
Defined.

(** ** Identity resolution *)

Section resolution.
Implicit Types (s acc : list ascii) (fullname : string).

Lemma span_no_space s :
  Forall (λ c, is_space c = false) s →
  span (λ c, negb (is_space c)) s = (s, []).
Proof.
  induction 1 as [|c s Hc Hs IH]; simpl; [done|]. by rewrite Hc, IH.
Qed.

Lemma group2_no_space c s :
  Forall (λ c, is_space c = false) s →
  R_VERSION.group2 (c :: s) =
  if R_CVE.dash c && starts_with_digit s then Some s else None.
Proof.
  intros Hs. unfold R_VERSION.group2, R_CVE.dash.
  case_bool_decide as Hc; simpl.
  - subst c. destruct s as [|d t]; [done|]. simpl.
    destruct (is_digit d); [|done].
    apply Forall_cons in Hs as [_ Ht].
    unfold R_VERSION.tail. by rewrite span_no_space.
  - destruct c as [[] [] [] [] [] [] [] []]; try done.
Qed.

Lemma go_no_space acc s :
  Forall (λ c, is_space c = false) s →
  R_VERSION.go acc s =
  '(p, v) ← split_at_dash_digit s; Some (rev acc ++ p, v).
Proof.
  intros Hs. revert acc. induction Hs as [|c s Hc Hs IH]; intros acc; [done|].
  cbn [R_VERSION.go split_at_dash_digit]. rewrite group2_no_space by done.
  destruct (R_CVE.dash c && starts_with_digit s).
  - simpl. by rewrite app_nil_r.
  - rewrite Hc, IH. destruct (split_at_dash_digit s) as [[p v]|]; [|done].
    simpl. by rewrite <- app_assoc.
Qed.

Lemma split_name_normalised fullname :
  split_name fullname =
  match R_VERSION.match_ (chars (normalised fullname)) with
  | Some (g1, g2) => (str g1, Some (str g2))
  | None => (normalised fullname, None)
  end.
Proof. reflexivity. Qed.

Lemma match_no_space c s :
  Forall (λ c, is_space c = false) (c :: s) →
  R_VERSION.match_ (c :: s) = '(p, v) ← split_at_dash_digit s; Some (c :: p, v).
Proof.
  intros [Hc Hs]%Forall_cons. simpl. by rewrite Hc, go_no_space.
Qed.

Lemma split_name_no_space fullname :
  Forall (λ c, is_space c = false) (chars (normalised fullname)) →
  split_name fullname = split_name_inside fullname.
Proof.
  intros Hs. rewrite split_name_normalised. unfold split_name_inside.
  destruct (chars (normalised fullname)) as [|c s]; [done|].
  rewrite match_no_space by done.
  by destruct (split_at_dash_digit s) as [[p v]|].
Qed.

(** C3, as amended: on an ASCII name that, in lower case and without a
    final [.drv], has no white space, [split_name] splits at the first dash
    that is followed by a digit and is not the first character; this is the
    first dash followed by a digit unless the name begins with one; the
    examples of the spec; and an ASCII name for which [split_name] finds no
    version makes [Derive.__init__] end with [SkipDrv]. *)
Theorem split_name_first_dash_digit :
  (∀ fullname,
     ascii_text fullname →
     Forall (λ c, is_space c = false) (chars (normalised fullname)) →
     split_name fullname = split_name_inside fullname) ∧
  (∀ fullname,
     ascii_text fullname →
     Forall (λ c, is_space c = false) (chars (normalised fullname)) →
     starts_with_dash_digit (chars (normalised fullname)) = false →
     split_name fullname = spec_split_name fullname) ∧
  split_name "foo-1.2.3" = ("foo", Some "1.2.3") ∧
  split_name "Foo-1.0" = ("foo", Some "1.0") ∧
  split_name "nameonly" = ("nameonly", None) ∧
  (∀ (J : JsonDecoder) envVars name patches n,
     Derive.resolved_name envVars name = Some n →
     ascii_text n →
     snd (split_name n) = None →
     Derive.__init__ envVars name patches = Derive.SkipDrv).
Proof.
  split_and!; [|  |reflexivity..|].
  - intros fullname _. apply split_name_no_space.
  - intros fullname _ Hs Hd. rewrite split_name_no_space by done.
    unfold split_name_inside, spec_split_name.
    destruct (chars (normalised fullname)) as [|c s]; [done|].
    simpl in *. rewrite Hd. by destruct (split_at_dash_digit s) as [[p v]|].
  - intros J envVars name patches n Hn _ Hv. unfold Derive.__init__. rewrite Hn.
    destruct (existsb _ _); [done|].
    destruct (split_name n) as [pname version]. simpl in Hv. by subst.
Qed.

(** C4, as amended: a name that ends, as it is written, with one of the
    six extensions makes [Derive.__init__] end with [SkipDrv]. *)
Theorem extension_skipped `{J : JsonDecoder} envVars name patches n e :
  Derive.resolved_name envVars name = Some n →
  e ∈ Derive.extensions →
  endswith n e = true →
  Derive.__init__ envVars name patches = Derive.SkipDrv.
Proof.
  intros Hn He Hend. unfold Derive.__init__. rewrite Hn.
  assert (existsb (endswith n) Derive.extensions = true) as ->; [|done].
  apply existsb_exists. exists e. by rewrite <- list_elem_of_In.
Qed.

(** C5: the code at [a-1] and [b-1].  Both objects are built, and both
    [a < b] and [a > b] hold, whatever the version comparator is. *)
Theorem lt_and_gt_both_hold `{V : VersionOrder} `{J : JsonDecoder} :
  let a := {| Derive.name := "a-1"; Derive.pname := "a";
              Derive.version := "1"; Derive.patches := "" |} in
  let b := {| Derive.name := "b-1"; Derive.pname := "b";
              Derive.version := "1"; Derive.patches := "" |} in
  Derive.__init__ ∅ (Some "a-1") None = Derive.Built a ∧
  Derive.__init__ ∅ (Some "b-1") None = Derive.Built b ∧
  Derive.lt a b = true ∧
  Derive.gt a b = true.
Proof. split_and!; reflexivity. Qed.

End resolution.

Lemma split_name_first_dash_digit_witness :
  split_name "-1-2" = split_name_inside "-1-2" ∧
  split_name "Foo-Bar-1.0-2.drv" = spec_split_name "Foo-Bar-1.0-2.drv" ∧
  @Derive.__init__ no_json ∅ (Some "nameonly") None = Derive.SkipDrv.
Proof.
  split_and!.
  - apply (proj1 split_name_first_dash_digit "-1-2").
    + by apply ascii_text_check.
    + vm_compute. repeat constructor.
  - apply (proj1 (proj2 split_name_first_dash_digit) "Foo-Bar-1.0-2.drv").
    + by apply ascii_text_check.
    + vm_compute. repeat constructor.
    + reflexivity.
  - apply (proj2 (proj2 (proj2 (proj2 (proj2 split_name_first_dash_digit))))
             no_json ∅ (Some "nameonly") None "nameonly");
      [reflexivity | by apply ascii_text_check | reflexivity].
Defined.

(** C3, as stated, fails on a name with a blank, where nothing is split,
    and on a name that begins with a dash and a digit, where the split is
    at a later dash. *)
Lemma split_name_not_first_dash_digit :
  split_name "a b-1" = ("a b-1", None) ∧
  spec_split_name "a b-1" = ("a b", Some "1") ∧
  split_name "a b-1" ≠ spec_split_name "a b-1" ∧
  split_name "-1-2" = ("-1", Some "2") ∧
  spec_split_name "-1-2" = ("", Some "1-2") ∧
  split_name "-1-2" ≠ spec_split_name "-1-2".
Proof. split_and!; vm_compute; first [reflexivity | discriminate]. Qed.

Lemma extension_skipped_witness :
  @Derive.__init__ no_json ∅ (Some "openssl-1.0.1.tar.gz") None = Derive.SkipDrv.
Proof.
  apply (extension_skipped (J := no_json) ∅ (Some "openssl-1.0.1.tar.gz") None
           "openssl-1.0.1.tar.gz" ".tar.gz").
  - reflexivity.
  - left.
  - reflexivity.
Defined.

(** C4, as stated, fails: an extension in upper case, or one followed by
    [.drv], is there after normalisation, and the object is built. *)
Lemma extension_not_skipped :
  endswith (normalised "foo-1.0.TAR.GZ") ".tar.gz" = true ∧
  @Derive.__init__ no_json ∅ (Some "foo-1.0.TAR.GZ") None =
    Derive.Built {| Derive.name := "foo-1.0.TAR.GZ"; Derive.pname := "foo";
                    Derive.version := "1.0.tar.gz"; Derive.patches := "" |} ∧
  @Derive.__init__ no_json ∅ (Some "foo-1.0.TAR.GZ") None ≠ Derive.SkipDrv ∧
  endswith (normalised "foo-1.0.zip.drv") ".zip" = true ∧
  @Derive.__init__ no_json ∅ (Some "foo-1.0.zip.drv") None =
    Derive.Built {| Derive.name := "foo-1.0.zip.drv"; Derive.pname := "foo";
                    Derive.version := "1.0.zip"; Derive.patches := "" |} ∧
  @Derive.__init__ no_json ∅ (Some "foo-1.0.zip.drv") None ≠ Derive.SkipDrv.
Proof. split_and!; vm_compute; first [reflexivity | discriminate]. Qed.

(** ** Updating *)

Section updating.
Context `{VP : VersionPredicates}.
Implicit Types (st : State) (r : Root) (db : DB) (self : NVD.t)
  (net : Network) (now : Z) (a : ArchiveName) (l : list ArchiveName).

Lemma download_run net now (arch : Archive.t) mirror st :
  Archive.download net now arch mirror st =
  let u := mirror +:+ Archive.download_uri arch in
  let resp := net u (Meta.headers_for (meta (root st)) u) in
  let st1 := {| root := root st; fetched := fetched st ++ [(u, resp)] |} in
  match resp with
  | NoResponse => (Raised RequestException, st1)
  | HTTP status_code headers content =>
      if bool_decide (400 ≤ status_code < 600) then (Raised HTTPError, st1)
      else if bool_decide (status_code = 200) then
        match content with
        | None => (Raised DecodeError, st1)
        | Some raw =>
            (Ok (Archive.parse arch raw),
             {| root := set_meta (root st)
                  (Meta.set_last_update
                     (Meta.update_headers_for (meta (root st)) u headers) now);
                fetched := fetched st ++ [(u, resp)] |})
        end
      else (Ok arch, st1)
  end.
Proof.
  unfold Archive.download, bind, get_root, requests_get, Archive.raise_for_status.
  simpl. destruct (net _ _) as [|c h content]; [done|].
  case_bool_decide; [done|]. simpl.
  case_bool_decide; [|done]. by destruct content.
Qed.

(** One request is made, whatever the outcome; the records, the index and
    the compaction counter are left alone; the time stamp is left alone or
    set to [now], and it is set when fresh content was taken in. *)
Lemma download_effect net now (arch : Archive.t) mirror st res st' :
  Archive.download net now arch mirror st = (res, st') →
  ∃ resp,
    fetched st' = fetched st ++ [(mirror +:+ Archive.download_uri arch, resp)] ∧
    advisory (root st') = advisory (root st) ∧
    by_product (root st') = by_product (root st) ∧
    Meta.pack_counter (meta (root st')) = Meta.pack_counter (meta (root st)) ∧
    (Meta.last_update (meta (root st')) = Meta.last_update (meta (root st)) ∨
     Meta.last_update (meta (root st')) = now) ∧
    (fresh resp = true → clean res = true →
     Meta.last_update (meta (root st')) = now).
Proof.
  rewrite download_run. cbv zeta.
  destruct (net _ _) as [|c h content] eqn:Hr.
  { intros [= <- <-]. eexists. split_and!; eauto. done. }
  case_bool_decide.
  { intros [= <- <-]. eexists. split_and!; eauto. done. }
  case_bool_decide as Hc.
  - destruct content; intros [= <- <-]; eexists; (split_and!; [reflexivity|..]);
      simpl; auto; try done.
    unfold Meta.update_headers_for. by destruct (ci_get _ _).
  - intros [= <- <-]. eexists. split_and!; eauto.
    simpl. by rewrite bool_decide_eq_true.
Qed.

Lemma download_failing net now (arch : Archive.t) mirror st :
  failing (net (mirror +:+ Archive.download_uri arch)
               (Meta.headers_for (meta (root st)) (mirror +:+ Archive.download_uri arch)))
    = true →
  ∃ e resp, Archive.download net now arch mirror st =
       (Raised e, {| root := root st;
                     fetched := fetched st
                                ++ [(mirror +:+ Archive.download_uri arch, resp)] |}).
Proof.
  rewrite download_run. cbv zeta. destruct (net _ _) as [|c h content]; simpl.
  - eauto.
  - intros ->. eauto.
Qed.

Lemma update_loop_cons net now self a l st :
  NVD.update_loop net now self (a :: l) st =
  match Archive.download net now (Archive.__init__ a) (NVD.mirror self) st with
  | (Ok arch, st1) =>
      NVD.update_loop net now self l
        {| root := set_advisory (root st1)
                     (ingest (advisory (root st1)) (Archive.items arch));
           fetched := fetched st1 |}
  | (Raised e, st1) => (Raised e, st1)
  end.
Proof.
  cbn [NVD.update_loop]. unfold bind at 1.
  destruct (Archive.download _ _ _ _ _) as [[arch|e] st1]; [|done].
  unfold bind. by rewrite add_run.
Qed.

(** What a run of the loop changes: it requests a prefix of the URLs of
    its segments, in order, and all of them when it ends without raising;
    it leaves the compaction counter alone, and the time stamp alone or
    set to [now]; when it ends without raising and some response was
    fresh, the time stamp is [now]. *)
Lemma update_loop_effect net now self l st res st' :
  NVD.update_loop net now self l st = (res, st') →
  ∃ f, fetched st' = fetched st ++ f ∧
       f.*1 `prefix_of` (url self <$> l) ∧
       (clean res = true → f.*1 = url self <$> l) ∧
       Meta.pack_counter (meta (root st')) = Meta.pack_counter (meta (root st)) ∧
       (Meta.last_update (meta (root st')) = Meta.last_update (meta (root st)) ∨
        Meta.last_update (meta (root st')) = now) ∧
       (clean res = true → Exists (λ e, fresh e.2 = true) f →
        Meta.last_update (meta (root st')) = now).
Proof.
  revert st. induction l as [|a l IH]; intros st.
  - intros [= <- <-]. exists []. rewrite app_nil_r.
    split_and!; auto. by intros _ ?%Exists_nil.
  - rewrite update_loop_cons.
    destruct (Archive.download _ _ _ _ _) as [[arch|e] st1] eqn:Hd;
      apply download_effect in Hd as (resp & Hf & _ & _ & Hp & Hl & Hfr).
    + intros Hloop.
      apply IH in Hloop as (f & Hf' & Hpre & Hall & Hp' & Hl' & Hfr').
      simpl in *. exists ((url self a, resp) :: f). split_and!.
      * rewrite Hf', Hf, <- app_assoc. done.
      * simpl. by apply prefix_cons.
      * intros ?. simpl. f_equal. auto.
      * congruence.
      * destruct Hl' as [->| ->]; auto.
      * intros Hres [Hhd|Htl]%Exists_cons; [|auto].
        simpl in Hhd. specialize (Hfr Hhd eq_refl).
        destruct Hl' as [->| ->]; auto.
    + intros [= <- <-]. exists [(url self a, resp)].
      split_and!; [done| |done|done|done|done].
      apply prefix_cons, prefix_nil.
Qed.

Lemma update_run net now self st :
  NVD.update net now self st =
  match NVD.update_loop net now self (NVD.relevant_archives self now (root st)) st with
  | (Ok _, st1) => NVD.reindex st1
  | (Raised e, st1) => (Raised e, st1)
  end.
Proof.
  unfold NVD.update, bind at 1, get_root. unfold bind at 1.
  by destruct (NVD.update_loop _ _ _ _ _) as [[[]|e] st1].
Qed.

(** A segment whose fetch fails stops the loop, at that segment at the
    latest. *)
Lemma update_loop_failing net now self pre a post st :
  (∀ headers, failing (net (url self a) headers) = true) →
  ∃ e st' f, NVD.update_loop net now self (pre ++ a :: post) st = (Raised e, st') ∧
             fetched st' = fetched st ++ f ∧
             f.*1 `prefix_of` (url self <$> (pre ++ [a])).
Proof.
  intros Hfail. revert st. induction pre as [|b pre IH]; intros st.
  - cbn [app]. rewrite update_loop_cons.
    destruct (download_failing net now (Archive.__init__ a) (NVD.mirror self) st)
      as (e & resp & ->); [apply Hfail|].
    eexists e, _, [(url self a, resp)]. split_and!; done.
  - cbn [app]. rewrite update_loop_cons.
    destruct (Archive.download _ _ _ _ _) as [[arch|e] st1] eqn:Hd;
      apply download_effect in Hd as (resp & Hf & _).
    + destruct (IH {| root := set_advisory (root st1)
                        (ingest (advisory (root st1)) (Archive.items arch));
                      fetched := fetched st1 |}) as (e & st' & f & -> & Hf' & Hpre).
      exists e, st', ((url self b, resp) :: f).
      split_and!; [done| |by apply prefix_cons].
      rewrite Hf'. simpl. by rewrite Hf, <- app_assoc.
    + exists e, st1, [(url self b, resp)]. split_and!; [done|done|].
      apply prefix_cons, prefix_nil.
Qed.

Lemma current_commit r db : current (transaction_commit r db) = r.
Proof. unfold transaction_commit. by case_decide. Qed.

Lemma current_pack db : current (pack db) = current db.
Proof. unfold current, pack. simpl. by destruct (revisions db). Qed.

(** A clean exit commits the working root with the counter advanced, and
    packs when the advanced counter exceeds 25. *)
Lemma exit_clean st db :
  let c := Meta.pack_counter (meta (root st)) in
  ∃ db', NVD.__exit__ None st db = (bool_decide (c + 1 > 25), db') ∧
         current db' =
         set_meta (root st)
           (Meta.set_pack_counter (meta (root st))
              (if bool_decide (c + 1 > 25) then 0 else c + 1)).
Proof.
  intros c. unfold NVD.__exit__, Meta.should_pack. simpl. fold c.
  case_bool_decide; eexists; (split; [reflexivity|]).
  - by rewrite current_commit.
  - by rewrite current_commit.
Qed.

Lemma session_run {A} (body : M A) db :
  NVD.session body db =
  match body (at_root (current db)) with
  | (Ok x, st) =>
      let '(packed, db') := NVD.__exit__ None st db in (Ok x, packed, db', fetched st)
  | (Raised e, st) => (Raised e, false, db, fetched st)
  end.
Proof.
  unfold NVD.session, NVD.__enter__, at_root.
  by destruct (body _) as [[x|e] st].
Qed.

End updating.

(** ** Sessions *)

Section sessions.
Context `{VP : VersionPredicates}.
Implicit Types (st : State) (r : Root) (db : DB) (self : NVD.t)
  (net : Network) (now : Z) (a : ArchiveName).

(** C6, as amended: a segment whose fetch fails is not absorbed.  [update]
    raises at that segment at the latest, so no later segment is
    requested; the exception leaves the session, nothing is committed and
    nothing packed, and the database is the one from before the run. *)
Theorem failed_fetch_aborts_run self net now db pre a post :
  NVD.relevant_archives self now (current db) = pre ++ a :: post →
  (∀ headers, failing (net (url self a) headers) = true) →
  ∃ e f, NVD.session (NVD.update net now self) db = (Raised e, false, db, f) ∧
         f.*1 `prefix_of` (url self <$> (pre ++ [a])).
Proof.
  intros Hrel Hfail. rewrite session_run, update_run. simpl. rewrite Hrel.
  destruct (update_loop_failing net now self pre a post (at_root (current db)) Hfail)
    as (e & st' & f & -> & Hf & Hpre).
  exists e, f. simpl in Hf. by rewrite Hf.
Qed.

Lemma update_effect net now self st res st' :
  NVD.update net now self st = (res, st') →
  Meta.pack_counter (meta (root st')) = Meta.pack_counter (meta (root st)).
Proof.
  rewrite update_run.
  destruct (NVD.update_loop _ _ _ _ _) as [[[]|e] st1] eqn:Hloop;
    apply update_loop_effect in Hloop as (f & _ & _ & _ & Hp & _).
  - rewrite reindex_run. by intros [= <- <-].
  - by intros [= <- <-].
Qed.

(** Inside the window of one hour nothing is requested and [update] is
    [reindex]. *)
Lemma update_in_window net now self st :
  Meta.last_update (meta (root st)) > now - 3600 →
  NVD.update net now self st = NVD.reindex st.
Proof.
  intros Hw. rewrite update_run. unfold NVD.relevant_archives.
  by rewrite bool_decide_true.
Qed.

(** C7, as amended: after a first run that ended cleanly and in which some
    response brought fresh content (status 200), a second run less than an
    hour after the first requests nothing and leaves the stored records
    and the product index as they are. *)
Theorem second_run_fetches_nothing self net1 net2 now1 now2 db p1 db1 f1 :
  NVD.session (NVD.update net1 now1 self) db = (Ok tt, p1, db1, f1) →
  Exists (λ e, fresh e.2 = true) f1 →
  now1 ≤ now2 < now1 + 3600 →
  ∃ p2 db2,
    NVD.session (NVD.update net2 now2 self) db1 = (Ok tt, p2, db2, []) ∧
    advisory (current db2) = advisory (current db1) ∧
    by_product (current db2) = by_product (current db1).
Proof.
  intros Hrun Hfresh Hnow. rewrite session_run, update_run in Hrun.
  destruct (NVD.update_loop _ _ _ _ _) as [[[]|e] stL] eqn:Hloop; [|done].
  apply update_loop_effect in Hloop as (f & Hf & _ & _ & _ & _ & Hstamp).
  rewrite reindex_run in Hrun.
  destruct (exit_clean
              {| root := set_by_product (root stL)
                   (foldl NVD.index_vuln ∅ (NVD.values (advisory (root stL))));
                 fetched := fetched stL |} db) as (db' & Hexit & Hcur).
  rewrite Hexit in Hrun. injection Hrun as _ <- <-.
  simpl in Hf. rewrite Hf in Hfresh. specialize (Hstamp eq_refl Hfresh).
  rewrite session_run, update_in_window by (rewrite Hcur; simpl; lia).
  rewrite reindex_run.
  destruct (exit_clean
              {| root := set_by_product (root (at_root (current db')))
                   (foldl NVD.index_vuln ∅
                      (NVD.values (advisory (root (at_root (current db'))))));
                 fetched := fetched (at_root (current db')) |} db')
    as (db2 & Hexit2 & Hcur2).
  rewrite Hexit2. eexists _, db2. split; [reflexivity|].
  rewrite Hcur2, Hcur. done.
Qed.

Lemma sessions_cons self net now runs db :
  sessions self ((net, now) :: runs) db =
  let '(res, packed, db', _) := NVD.session (NVD.update net now self) db in
  ((res, packed) :: (sessions self runs db').1, (sessions self runs db').2).
Proof.
  cbn [sessions]. destruct (NVD.session _ _) as [[[res packed] db'] f].
  by destruct (sessions self runs db').
Qed.

(** The counter after [c] clean sessions since the last compaction decides
    when the next ones compact. *)
Lemma sessions_pack self runs db c k res p :
  Meta.pack_counter (meta (current db)) = c → 0 ≤ c ≤ 25 →
  (sessions self runs db).1 !! k = Some (res, p) →
  p = clean res &&
      bool_decide ((c + clean_among (S k) (sessions self runs db).1) `mod` 26 = 0).
Proof.
  revert db c k res p.
  induction runs as [|[net now] runs IH]; intros db c k res p Hc Hrange.
  { done. }
  rewrite sessions_cons, session_run.
  destruct (NVD.update _ _ _ _) as [[[]|e] st] eqn:Hup.
  - apply update_effect in Hup. simpl in Hup. rewrite Hc in Hup.
    destruct (exit_clean st db) as (db' & -> & Hcur). rewrite Hup in *.
    cbn [fst snd]. unfold clean_among. destruct k as [|k]; simpl.
    + intros [= <- <-]. simpl. apply bool_decide_ext.
      change (Z.of_nat 1) with 1. Z.div_mod_to_equations. lia.
    + intros Hk.
      rewrite (IH db' (if bool_decide (c + 1 > 25) then 0 else c + 1) k res p);
        [|by rewrite Hcur|by case_bool_decide; lia|done].
      f_equal. unfold clean_among. apply bool_decide_ext.
      rewrite Nat2Z.inj_succ.
      case_bool_decide; Z.div_mod_to_equations; lia.
  - cbn [fst snd]. unfold clean_among. destruct k as [|k]; simpl.
    + by intros [= <- <-].
    + intros Hk. by rewrite (IH db c k res p).
Qed.

(** C9, as amended: the counter advances by one per clean session;
    compaction fires when the advanced counter exceeds 25, that is in the
    26th clean session and every 26th after it, and the counter then
    starts again at 0; a session that raises neither counts nor compacts;
    and compaction leaves the root, hence the answer of every query, as it
    is. *)
Theorem compaction_every_26th_clean_session :
  (∀ self runs db k res p,
     Meta.pack_counter (meta (current db)) = 0 →
     (sessions self runs db).1 !! k = Some (res, p) →
     p = clean res &&
         bool_decide (clean_among (S k) (sessions self runs db).1 `mod` 26 = 0)) ∧
  (∀ st db,
     let c := Meta.pack_counter (meta (root st)) in
     ∃ db', NVD.__exit__ None st db = (bool_decide (c + 1 > 25), db') ∧
            Meta.pack_counter (meta (current db')) =
              (if bool_decide (c + 1 > 25) then 0 else c + 1) ∧
            advisory (current db') = advisory (root st) ∧
            by_product (current db') = by_product (root st)) ∧
  (∀ db cve_id product version,
     NVD.by_id (current (pack db)) cve_id = NVD.by_id (current db) cve_id ∧
     NVD.by_product (current (pack db)) product = NVD.by_product (current db) product ∧
     NVD.affected (current (pack db)) product version =
       NVD.affected (current db) product version).
Proof.
  split_and!.
  - intros self runs db k res p Hc Hk.
    rewrite (sessions_pack self runs db 0 k res p Hc ltac:(lia) Hk).
    by rewrite Z.add_0_l.
  - intros st db c. destruct (exit_clean st db) as (db' & Hexit & Hcur).
    exists db'. split; [done|]. by rewrite Hcur.
  - intros db cve_id product version. by rewrite current_pack.
Qed.

End sessions.

(** The mirror answers the first segment, 2016, with status 500. *)
Lemma failed_fetch_aborts_run_witness :
  ∃ e f, NVD.session (NVD.update broken_2016 t0 nvd_2021) empty_db
           = (Raised e, false, empty_db, f) ∧
         f.*1 `prefix_of` (@url exact_versions nvd_2021 <$> ([] ++ [Year 2016])).
Proof.
  apply (failed_fetch_aborts_run nvd_2021 broken_2016 t0 empty_db [] (Year 2016)
           [Year 2017; Year 2018; Year 2019; Year 2020; Year 2021; modified]).
  - vm_compute. reflexivity.
  - intros headers. reflexivity.
Defined.

(** C6, as stated, fails: the segment of 2016 fails, the mirror would
    serve the segment of 2017 with fresh content, and the run ends with the
    exception after the one request, with nothing stored. *)
Lemma failed_fetch_stops_sync :
  NVD.relevant_archives nvd_2021 t0 (current empty_db)
    = [Year 2016; Year 2017; Year 2018; Year 2019; Year 2020; Year 2021; modified] ∧
  failing (broken_2016 (@url exact_versions nvd_2021 (Year 2016)) ∅) = true ∧
  fresh (broken_2016 (@url exact_versions nvd_2021 (Year 2017)) ∅) = true ∧
  NVD.session (NVD.update broken_2016 t0 nvd_2021) empty_db
    = (Raised HTTPError, false, empty_db,
       [("https://nvd.example/nvdcve-1.1-2016.json.gz", HTTP 500 ∅ None)]) ∧
  @url exact_versions nvd_2021 (Year 2017)
    ∉ (NVD.session (NVD.update broken_2016 t0 nvd_2021) empty_db).2.*1.
Proof.
  split_and!; [vm_compute; reflexivity..|].
  vm_compute. intros H. apply elem_of_cons in H as [H|H]; [discriminate H|].
  apply elem_of_nil in H. exact H.
Qed.

(** A second run one minute after the first synchronisation. *)
Lemma second_run_fetches_nothing_witness :
  ∃ p2 db2,
    NVD.session (NVD.update feed_server (t0 + 60) nvd_2021) db_synced
      = (Ok tt, p2, db2, []) ∧
    advisory (current db2) = advisory (current db_synced) ∧
    by_product (current db2) = by_product (current db_synced).
Proof.
  apply (second_run_fetches_nothing nvd_2021 feed_server feed_server t0 (t0 + 60)
           empty_db first_sync.1.1.2 db_synced first_sync.2).
  - vm_compute. reflexivity.
  - vm_compute. left. reflexivity.
  - unfold t0. lia.
Defined.

(** C7, as stated, fails: two hours after the first synchronisation a run
    gets 304 for the modified segment, which leaves the time stamp as it
    was, and a second run at the same time requests the segment again. *)
Lemma second_run_fetches_again :
  let '(resA, _, dbA, fA) :=
    NVD.session (NVD.update feed_server (t0 + 7200) nvd_2021) db_synced in
  let '(resB, _, _, fB) :=
    NVD.session (NVD.update feed_server (t0 + 7200) nvd_2021) dbA in
  resA = Ok tt ∧
  fA = [("https://nvd.example/nvdcve-1.1-modified.json.gz", HTTP 304 ∅ None)] ∧
  resB = Ok tt ∧
  fB = [("https://nvd.example/nvdcve-1.1-modified.json.gz", HTTP 304 ∅ None)] ∧
  fB ≠ [].
Proof. vm_compute. split_and!; first [reflexivity | discriminate]. Qed.

(** The 26th of twenty-six clean sessions. *)
Lemma compaction_every_26th_clean_session_witness :
  true = clean (Ok tt) &&
         bool_decide (clean_among 26 (sessions nvd_2021 twenty_six empty_db).1
                        `mod` 26 = 0).
Proof.
  apply (proj1 compaction_every_26th_clean_session nvd_2021 twenty_six empty_db
           25%nat (Ok tt) true).
  - reflexivity.
  - vm_compute. reflexivity.
Defined.

(** C9, as stated, fails: the 25th clean session does not compact, the
    26th does. *)
Lemma no_compaction_in_25th_session :
  (sessions nvd_2021 twenty_six empty_db).1 !! 24%nat = Some (Ok tt, false) ∧
  (sessions nvd_2021 twenty_six empty_db).1 !! 25%nat = Some (Ok tt, true).
Proof. split; vm_compute; reflexivity. Qed.

(** * Further properties of the code *)

(** ** Strings *)

Section strings.
Implicit Types (s t : string) (l k : list ascii) (c : ascii).

Lemma chars_str l : chars (str l) = l.
Proof. apply list_ascii_of_string_of_list_ascii. Qed.

Lemma str_chars s : str (chars s) = s.
Proof. apply string_of_list_ascii_of_string. Qed.

Lemma chars_inj s t : chars s = chars t → s = t.
Proof. intros H. by rewrite <- (str_chars s), <- (str_chars t), H. Qed.

Lemma chars_app s t : chars (s +:+ t) = chars s ++ chars t.
Proof. induction s as [|c s IH]; simpl; [done|]. by rewrite IH. Qed.

Lemma lower_char_not_upper c : is_upper (lower_char c) = false.
Proof. destruct c as [[] [] [] [] [] [] [] []]; reflexivity. Qed.

Lemma chars_lower s : chars (lower s) = lower_char <$> chars s.
Proof. unfold lower. by rewrite chars_str. Qed.

Lemma endswith_suffix s e : endswith s e = true ↔ chars e `suffix_of` chars s.
Proof. unfold endswith. by rewrite bool_decide_eq_true. Qed.

Lemma chars_drop_last n s : chars (drop_last n s) = take (length (chars s) - n) (chars s).
Proof. unfold drop_last. by rewrite chars_str. Qed.

(** The normalised name is the lower-case name, or it with its last four
    characters, [.drv], taken off. *)
Lemma chars_normalised fullname :
  chars (lower fullname) = chars (normalised fullname) ∨
  chars (lower fullname) = chars (normalised fullname) ++ chars ".drv".
Proof.
  unfold normalised. destruct (endswith _ _) eqn:He; [|by left].
  right. apply endswith_suffix in He as [k Hk].
  rewrite chars_drop_last, Hk, length_app.
  replace (length k + length (chars ".drv") - 4)%nat with (length k) by (simpl; lia).
  by rewrite take_app_length.
Qed.

Lemma normalised_not_upper fullname :
  Forall (λ c, is_upper c = false) (chars (normalised fullname)).
Proof.
  assert (Forall (λ c, is_upper c = false) (chars (lower fullname))) as Hl.
  { rewrite chars_lower, Forall_fmap. apply Forall_true. intros c. simpl.
    apply lower_char_not_upper. }
  destruct (chars_normalised fullname) as [<-|Heq]; [done|].
  rewrite Heq in Hl. by apply Forall_app in Hl as [? _].
Qed.

End strings.

(** ** The shape of a split name *)

Section name_shape.
Implicit Types (s acc mid w r : list ascii) (c d : ascii).

Lemma tail_shape t w :
  R_VERSION.tail t = Some w →
  ∃ r, t = w ++ r ∧ Forall (λ c, is_space c = false) w ∧ (r = [] ∨ r = ["010"%char]).
Proof.
  unfold R_VERSION.tail.
  destruct (span _ t) as [w' r] eqn:Hs.
  apply span_spec in Hs as (-> & Hw & _).
  assert (Forall (λ c, is_space c = false) w') as Hw'.
  { eapply Forall_impl; [exact Hw|]. intros c. simpl. by destruct (is_space c). }
  destruct r as [|c [|c' r]].
  - intros [= <-]. exists []. auto.
  - destruct c as [[] [] [] [] [] [] [] []]; try done.
    intros [= <-]. eexists. split_and!; [done|done|by right].
  - by destruct c as [[] [] [] [] [] [] [] []].
Qed.

Lemma group2_shape s (g2 : list ascii) :
  R_VERSION.group2 s = Some g2 →
  ∃ d w r, s = "-"%char :: d :: w ++ r ∧ g2 = d :: w ∧ is_digit d = true ∧
           Forall (λ c, is_space c = false) w ∧ (r = [] ∨ r = ["010"%char]).
Proof.
  unfold R_VERSION.group2. destruct s as [|c [|d t]].
  - done.
  - by destruct c as [[] [] [] [] [] [] [] []].
  - destruct c as [[] [] [] [] [] [] [] []]; try done.
    destruct (is_digit d) eqn:Hd; [|done].
    destruct (R_VERSION.tail t) as [w|] eqn:Ht; [|done].
    intros [= <-]. apply tail_shape in Ht as (r & -> & Hw & Hr).
    by exists d, w, r.
Qed.

Lemma go_shape acc s (g1 g2 : list ascii) :
  R_VERSION.go acc s = Some (g1, g2) →
  ∃ mid d w r, s = mid ++ "-"%char :: d :: w ++ r ∧ g1 = rev acc ++ mid ∧
               g2 = d :: w ∧ is_digit d = true ∧
               Forall (λ c, is_space c = false) mid ∧
               Forall (λ c, is_space c = false) w ∧ (r = [] ∨ r = ["010"%char]).
Proof.
  revert acc. induction s as [|c s IH]; intros acc; [done|].
  cbn [R_VERSION.go]. destruct (R_VERSION.group2 (c :: s)) as [v|] eqn:Hg.
  - intros [= <- <-]. apply group2_shape in Hg as (d & w & r & -> & -> & ? & ? & ?).
    exists [], d, w, r. rewrite app_nil_r. split_and!; done.
  - destruct (is_space c) eqn:Hc; [done|].
    intros (mid & d & w & r & -> & -> & -> & ? & ? & ? & ?)%IH.
    exists (c :: mid), d, w, r. simpl. rewrite <- app_assoc.
    split_and!; try done. by constructor.
Qed.

Lemma match_shape s (g1 g2 : list ascii) :
  R_VERSION.match_ s = Some (g1, g2) →
  ∃ c mid d w r, s = g1 ++ "-"%char :: g2 ++ r ∧ g1 = c :: mid ∧ g2 = d :: w ∧
                 is_digit d = true ∧
                 Forall (λ c, is_space c = false) g1 ∧
                 Forall (λ c, is_space c = false) g2 ∧
                 (r = [] ∨ r = ["010"%char]).
Proof.
  destruct s as [|c s]; [done|]. simpl.
  destruct (is_space c) eqn:Hc; [done|].
  intros (mid & d & w & r & -> & -> & -> & Hd & Hmid & Hw & Hr)%go_shape.
  exists c, mid, d, w, r. simpl. split_and!; try done.
  - by constructor.
  - constructor; [|done]. by destruct d as [[] [] [] [] [] [] [] []].
Qed.

Lemma split_name_version fullname p v :
  split_name fullname = (p, Some v) →
  (chars (normalised fullname) = chars p ++ chars "-" ++ chars v ∨
   chars (normalised fullname) = chars p ++ chars "-" ++ chars v ++ ["010"%char]) ∧
  p ≠ "" ∧
  starts_with_digit (chars v) = true ∧
  Forall (λ c, is_space c = false ∧ is_upper c = false) (chars p ++ chars v).
Proof.
  rewrite split_name_normalised.
  destruct (R_VERSION.match_ _) as [[g1 g2]|] eqn:Hm; [|done].
  intros [= <- <-]. rewrite !chars_str.
  pose proof (normalised_not_upper fullname) as Hup.
  apply match_shape in Hm as (c & mid & d & w & r & Hs & -> & -> & Hd & H1 & H2 & Hr).
  rewrite Hs in Hup. apply Forall_app in Hup as [Hu1 Hup].
  apply Forall_cons in Hup as [_ Hup]. apply Forall_app in Hup as [Hu2 _].
  split_and!.
  - rewrite Hs. destruct Hr as [-> | ->]; [left|right]; [|done].
    by rewrite app_nil_r.
  - done.
  - done.
  - apply Forall_app. split; apply Forall_and; done.
Qed.

(** X1: what [split_name] returns on an ASCII name.  Without a version, the
    first component is the whole normalised name.  With a version, the
    normalised name is
    the product name, a dash and the version, possibly followed by one
    final newline; the product name is not empty, the version begins with
    a digit, and neither holds white space or an upper-case letter. *)
Theorem split_name_shape fullname p v :
  ascii_text fullname →
  split_name fullname = (p, v) →
  match v with
  | None => p = normalised fullname
  | Some v =>
      (chars (normalised fullname) = chars p ++ chars "-" ++ chars v ∨
       chars (normalised fullname) = chars p ++ chars "-" ++ chars v ++ ["010"%char]) ∧
      p ≠ "" ∧
      starts_with_digit (chars v) = true ∧
      Forall (λ c, is_space c = false ∧ is_upper c = false) (chars p ++ chars v)
  end.
Proof.
  intros _. destruct v as [v|]; [apply split_name_version|].
  rewrite split_name_normalised.
  destruct (R_VERSION.match_ _) as [[g1 g2]|]; [done|]. by intros [= <-].
Qed.

End name_shape.

Lemma split_name_shape_witness :
  chars (normalised "Foo-Bar-1.0-2.drv") = chars "foo-bar" ++ chars "-" ++ chars "1.0-2" ∨
  chars (normalised "Foo-Bar-1.0-2.drv")
    = chars "foo-bar" ++ chars "-" ++ chars "1.0-2" ++ ["010"%char].
Proof.
  apply (split_name_shape "Foo-Bar-1.0-2.drv" "foo-bar" (Some "1.0-2")).
  - by apply ascii_text_check.
  - reflexivity.
Defined.

(** ** Identities *)

Section identities.
Context `{J : JsonDecoder}.
Implicit Types (self : Derive.t) (envVars : gmap string string)
  (name patches : option string).

(** X2: what a built identity with an ASCII name guarantees.  Its name is
    the resolved name
    and ends with none of the six extensions; product name and version are
    what [split_name] finds in it, so the product name is not empty, the
    version begins with a digit and neither holds white space or an
    upper-case letter; and its patch text is the [patches] argument when
    that is not empty, else the [patches] entry of the environment, else
    empty. *)
Theorem built_identity envVars name patches self :
  Derive.__init__ envVars name patches = Derive.Built self →
  ascii_text (Derive.name self) →
  Derive.resolved_name envVars name = Some (Derive.name self) ∧
  Forall (λ e, endswith (Derive.name self) e = false) Derive.extensions ∧
  split_name (Derive.name self) = (Derive.pname self, Some (Derive.version self)) ∧
  Derive.pname self ≠ "" ∧
  starts_with_digit (chars (Derive.version self)) = true ∧
  Forall (λ c, is_space c = false ∧ is_upper c = false)
         (chars (Derive.pname self) ++ chars (Derive.version self)) ∧
  Derive.patches self =
    match Derive.truthy patches with
    | Some p => p
    | None => default "" (envVars !! "patches")
    end.
Proof.
  unfold Derive.__init__.
  destruct (Derive.resolved_name envVars name) as [n|]; [|done].
  destruct (existsb (endswith n) Derive.extensions) eqn:Hext; [done|].
  destruct (split_name n) as [p [v|]] eqn:Hsplit; [|done].
  unfold Derive.truthy at 1. case_decide; [done|].
  intros [= <-] _. simpl.
  destruct (split_name_version n p v Hsplit) as (_ & ? & ? & ?).
  split_and!; try done.
  apply Forall_forall. intros e He%list_elem_of_In.
  destruct (endswith n e) eqn:Hend; [|done].
  assert (existsb (endswith n) Derive.extensions = true) as Hex; [|congruence].
  apply existsb_exists. eauto.
Qed.

End identities.

Lemma built_identity_witness :
  split_name "openssl-1.0.1" = ("openssl", Some "1.0.1").
Proof.
  apply (built_identity (J := no_json) ∅ (Some "openssl-1.0.1") (Some "fix.patch")
           {| Derive.name := "openssl-1.0.1"; Derive.pname := "openssl";
              Derive.version := "1.0.1"; Derive.patches := "fix.patch" |}).
  - reflexivity.
  - by apply ascii_text_check.
Defined.

(** X3: a name given as argument, or else in the environment, settles the
    outcome without the decoder of structured attributes: the outcome is
    the same under any two decoders, and it is never the failure. *)
Theorem named_descriptor_never_fails (J1 J2 : JsonDecoder) envVars name patches n :
  Derive.truthy name = Some n ∨
  (Derive.truthy name = None ∧ Derive.truthy (envVars !! "name") = Some n) →
  @Derive.__init__ J1 envVars name patches = @Derive.__init__ J2 envVars name patches ∧
  @Derive.__init__ J1 envVars name patches ≠ Derive.Failed.
Proof.
  intros Hn.
  assert (∀ J : JsonDecoder, @Derive.resolved_name J envVars name = Some n) as Hres.
  { intros J. unfold Derive.resolved_name.
    assert (∀ x, Derive.truthy x = Some n → Derive.truthy (Some n) = Some n) as Hidem.
    { intros [x|]; simpl; [|done]. case_decide; [done|]. intros [= ->].
      by rewrite decide_False. }
    destruct Hn as [Hn|[Hn Hn']].
    - rewrite Hn. by rewrite (Hidem _ Hn).
    - rewrite Hn. by rewrite Hn'. }
  unfold Derive.__init__. rewrite !Hres. split; [done|].
  destruct (existsb _ _); [done|].
  destruct (split_name n) as [p v]. by destruct (Derive.truthy v).
Qed.

Lemma named_descriptor_never_fails_witness :
  @Derive.__init__ no_json {[ "name" := "openssl-1.0.1" ]} None None
    ≠ Derive.Failed.
Proof.
  apply (named_descriptor_never_fails no_json no_json
           {[ "name" := "openssl-1.0.1" ]} None None "openssl-1.0.1").
  right. split; reflexivity.
Defined.

(** ** Ordering identities *)

Section ordering.
Implicit Types (a b c : string).

Lemma ltb_compare a b : String.ltb a b = true ↔ String.compare a b = Lt.
Proof. unfold String.ltb. destruct (String.compare a b); split; congruence. Qed.

Lemma ltb_irrefl a : String.ltb a a = false.
Proof.
  unfold String.ltb. pose proof (String.compare_antisym a a) as H.
  by destruct (String.compare a a).
Qed.

Lemma ltb_le a b : String.ltb a b = true ↔ String.le a b ∧ a ≠ b.
Proof.
  rewrite ltb_compare. unfold String.le, String.leb. split.
  - intros Hlt. rewrite Hlt. split; [done|].
    intros ->. apply ltb_compare in Hlt. by rewrite ltb_irrefl in Hlt.
  - intros [Hle Hne]. destruct (String.compare a b) eqn:Hc; [|done|done].
    by apply String.compare_eq_iff in Hc.
Qed.

Lemma ltb_trans a b c :
  String.ltb a b = true → String.ltb b c = true → String.ltb a c = true.
Proof.
  rewrite !ltb_le. intros [Hab Hne] [Hbc Hne']. split; [by etrans|].
  intros ->. apply Hne. by apply (anti_symm String.le).
Qed.

Lemma ltb_asym a b : String.ltb a b = true → String.ltb b a = false.
Proof.
  intros Hab. destruct (String.ltb b a) eqn:Hba; [|done].
  pose proof (ltb_trans _ _ _ Hab Hba) as Haa. by rewrite ltb_irrefl in Haa.
Qed.

End ordering.

(** X4: [<] on identities is a strict order by product name and then
    version, whenever "compares as -1" is a strict order on versions: no
    identity is below itself, two identities are never below each other,
    and [<] is transitive. *)
Theorem lt_strict_order `{V : VersionOrder} :
  (∀ v, compare_versions v v ≠ -1) →
  (∀ u v w, compare_versions u v = -1 → compare_versions v w = -1 →
            compare_versions u w = -1) →
  (∀ a, Derive.lt a a = false) ∧
  (∀ a b, Derive.lt a b = true → Derive.lt b a = false) ∧
  (∀ a b c, Derive.lt a b = true → Derive.lt b c = true → Derive.lt a c = true).
Proof.
  intros Hirr Htrans.
  assert (∀ a, Derive.lt a a = false) as Hrefl.
  { intros a. unfold Derive.lt. rewrite ltb_irrefl.
    by rewrite bool_decide_eq_false. }
  assert (∀ a b c, Derive.lt a b = true → Derive.lt b c = true →
                   Derive.lt a c = true) as Htr.
  { intros a b c. unfold Derive.lt.
    destruct (String.ltb (Derive.pname a) (Derive.pname b)) eqn:Hab.
    - intros _. destruct (String.ltb (Derive.pname b) (Derive.pname c)) eqn:Hbc.
      + intros _. by rewrite (ltb_trans _ _ _ Hab Hbc).
      + destruct (String.ltb (Derive.pname c) (Derive.pname b)) eqn:Hcb; [done|].
        intros _. assert (Derive.pname b = Derive.pname c) as <-; [|by rewrite Hab].
        destruct (String.compare (Derive.pname b) (Derive.pname c)) eqn:Hc.
        * by apply String.compare_eq_iff.
        * apply ltb_compare in Hc. congruence.
        * rewrite String.compare_antisym in Hc.
          destruct (String.compare (Derive.pname c) (Derive.pname b)) eqn:Hc';
            try done.
          apply ltb_compare in Hc'. congruence.
    - destruct (String.ltb (Derive.pname b) (Derive.pname a)) eqn:Hba; [done|].
      assert (Derive.pname a = Derive.pname b) as Heq.
      { destruct (String.compare (Derive.pname a) (Derive.pname b)) eqn:Hc.
        * by apply String.compare_eq_iff.
        * apply ltb_compare in Hc. congruence.
        * rewrite String.compare_antisym in Hc.
          destruct (String.compare (Derive.pname b) (Derive.pname a)) eqn:Hc';
            try done.
          apply ltb_compare in Hc'. congruence. }
      rewrite Heq. rewrite bool_decide_eq_true. intros Hv.
      destruct (String.ltb (Derive.pname b) (Derive.pname c)); [done|].
      destruct (String.ltb (Derive.pname c) (Derive.pname b)); [done|].
      rewrite !bool_decide_eq_true. eauto. }
  split_and!; [done| |done].
  intros a b Hab. destruct (Derive.lt b a) eqn:Hba; [|done].
  pose proof (Htr _ _ _ Hab Hba) as Haa. by rewrite Hrefl in Haa.
Qed.

Lemma lt_strict_order_witness :
  @Derive.lt by_length openssl_1 zlib_1 = true.
Proof.
  apply (proj2 (proj2 (@lt_strict_order by_length
           ltac:(intros v; unfold compare_versions, by_length; lia)
           ltac:(intros u v w; unfold compare_versions, by_length; lia)))
         openssl_1 openssl_10 zlib_1); reflexivity.
Defined.

(** ** Candidates and patched identifiers *)

(** X5: the candidates of an identity begin with its product name, are at
    most two and never repeat; a second candidate has the length of the
    product name and no dash. *)
Theorem product_candidates_shape (self : Derive.t) :
  head (Derive.product_candidates self) = Some (Derive.pname self) ∧
  (length (Derive.product_candidates self) ≤ 2)%nat ∧
  NoDup (Derive.product_candidates self) ∧
  ∀ c, c ∈ Derive.product_candidates self → c ≠ Derive.pname self →
       ("-"%char ∉ chars c) ∧
       length (chars c) = length (chars (Derive.pname self)).
Proof.
  unfold Derive.product_candidates. split_and!.
  - done.
  - case_decide; simpl; lia.
  - case_decide as Halt; [|apply NoDup_singleton].
    apply NoDup_cons. split; [|apply NoDup_singleton].
    intros ?%list_elem_of_singleton. by apply Halt.
  - intros c Hc Hne. case_decide as Halt.
    + apply elem_of_cons in Hc as [->|Hc]; [done|].
      apply list_elem_of_singleton in Hc as ->. unfold replace_char.
      rewrite chars_str. split; [|by rewrite length_fmap].
      intros (x & Hx & _)%list_elem_of_fmap. by case_decide.
    + by apply list_elem_of_singleton in Hc.
Qed.

Lemma product_candidates_shape_witness :
  ("-"%char ∉ chars "foo_bar") ∧
  length (chars "foo_bar") = length (chars "foo-bar").
Proof.
  apply (proj2 (proj2 (proj2 (product_candidates_shape foo_bar))) "foo_bar").
  - right. left.
  - discriminate.
Defined.

Section patched.
Implicit Types (s m pre post rest : list ascii) (c : ascii) (self : Derive.t).

Lemma upper_char_facts c :
  lower_char (upper_char c) = lower_char c ∧
  R_CVE.dash (upper_char c) = R_CVE.dash c ∧
  is_digit (upper_char c) = is_digit c ∧
  upper_char (upper_char c) = upper_char c.
Proof. destruct c as [[] [] [] [] [] [] [] []]; split_and!; reflexivity. Qed.

Lemma letter_upper (x c : ascii) : R_CVE.letter x (upper_char c) = R_CVE.letter x c.
Proof. unfold R_CVE.letter. by rewrite (proj1 (upper_char_facts c)). Qed.

Lemma match_at_is_cve_id s m rest :
  R_CVE.match_at s = Some (m, rest) → is_cve_id m = true.
Proof.
  unfold R_CVE.match_at.
  destruct s as [|c [|v [|e [|d1 [|y1 [|y2 [|y3 [|y4 [|d2 [|n s']]]]]]]]]]; try done.
  destruct (_ && _) eqn:Hb; [|done].
  destruct (span is_digit s') as [ds r] eqn:Hs. intros [= <- <-].
  apply span_spec in Hs as (_ & Hds & _). cbn [is_cve_id app]. rewrite Hb. simpl.
  apply forallb_forall. intros x Hx%list_elem_of_In.
  by apply (proj1 (Forall_forall _ _) Hds).
Qed.

Lemma is_cve_id_upper m :
  is_cve_id m = true →
  is_cve_id (upper_char <$> m) = true ∧
  upper_char <$> (upper_char <$> m) = upper_char <$> m.
Proof.
  intros Hm. split.
  - destruct m as [|c [|v [|e [|d1 [|y1 [|y2 [|y3 [|y4 [|d2 [|n ds]]]]]]]]]]; try done.
    cbn [is_cve_id fmap list_fmap] in *.
    rewrite !letter_upper.
    rewrite !(proj1 (proj2 (upper_char_facts _))),
            !(proj1 (proj2 (proj2 (upper_char_facts _)))).
    apply andb_true_iff in Hm as [-> Hds]. simpl.
    apply forallb_forall. intros x Hx%list_elem_of_In.
    apply list_elem_of_fmap in Hx as (y & -> & Hy%list_elem_of_In).
    rewrite (proj1 (proj2 (proj2 (upper_char_facts _)))).
    by apply (proj1 (forallb_forall _ _) Hds).
  - rewrite <- list_fmap_compose. apply list_fmap_ext. intros _ c _. simpl.
    apply upper_char_facts.
Qed.

(** Every match that the scan yields is a part of the text, and the
    pattern matches there. *)
Lemma finditer_from_elem k s m :
  m ∈ R_CVE.finditer_from k s →
  ∃ pre post, s = pre ++ m ++ post ∧ R_CVE.match_at (m ++ post) = Some (m, post).
Proof.
  revert k. induction s as [|c s IH]; intros k; [by intros ?%elem_of_nil|].
  cbn [R_CVE.finditer_from]. destruct k as [|k].
  - destruct (R_CVE.match_at (c :: s)) as [[mm rest]|] eqn:Hat.
    + intros [->|Hm]%elem_of_cons.
      * destruct (match_at_shape _ _ _ Hat) as (Heq & _).
        exists [], rest. simpl. by rewrite <- Heq.
      * apply IH in Hm as (pre & post & -> & ?). by exists (c :: pre), post.
    + intros (pre & post & -> & ?)%IH. by exists (c :: pre), post.
  - intros (pre & post & -> & ?)%IH. by exists (c :: pre), post.
Qed.

Lemma fold_set_add_NoDup {A B} `{EqDecision B} (f : A → B) l acc :
  NoDup acc → NoDup (foldl (λ a t, set_add (f t) a) acc l).
Proof.
  revert acc. induction l as [|t l IH]; intros acc Hacc; [done|].
  simpl. by apply IH, set_add_NoDup.
Qed.

(** X6: the patched identifiers of an ASCII patch text are well formed and
    come from the patch text.  Each one is the upper-case form of a part
    of the patch text, matches the CVE pattern, and is in upper case
    already; none is listed twice. *)
Theorem applied_patches_sound self :
  ascii_text (Derive.patches self) →
  NoDup (Derive.applied_patches self) ∧
  ∀ id, id ∈ Derive.applied_patches self →
        is_cve_id (chars id) = true ∧
        upper id = id ∧
        ∃ pre m post, chars (Derive.patches self) = pre ++ m ++ post ∧
                      id = upper (str m).
Proof.
  intros _. split; [apply fold_set_add_NoDup, NoDup_nil_2|].
  intros id (t & Ht & ->)%applied_patches_elem.
  unfold R_CVE.finditer in Ht.
  apply list_elem_of_fmap in Ht as (m & -> & Hm).
  apply finditer_from_elem in Hm as (pre & post & Hs & Hat).
  apply match_at_is_cve_id, is_cve_id_upper in Hat as [Hid Hup].
  assert (∀ l, upper (str l) = str (upper_char <$> l)) as Hstr.
  { intros l. unfold upper. by rewrite chars_str. }
  rewrite !Hstr, chars_str, Hup. split_and!; [done|done|].
  exists pre, m, post. by rewrite Hstr.
Qed.

End patched.

Lemma applied_patches_sound_witness :
  is_cve_id (chars "CVE-2021-1234") = true ∧
  upper "CVE-2021-1234" = "CVE-2021-1234" ∧
  ∃ pre m post, chars (Derive.patches openssl_patched) = pre ++ m ++ post ∧
                "CVE-2021-1234" = upper (str m).
Proof.
  apply (proj2 (applied_patches_sound openssl_patched
                  (ascii_text_check (Derive.patches openssl_patched) eq_refl))
               "CVE-2021-1234").
  vm_compute. left.
Defined.

(** ** What [check] reports *)

Section reports.
Context `{VP : VersionPredicates}.
Implicit Types (self : Derive.t) (nvd : Root) (v : Vulnerability).

Lemma unremediated_elem self nvd c v :
  v ∈ unremediated self nvd c ↔
  v ∈ NVD.by_product nvd c ∧
  Vulnerability_match v c (Derive.version self) = true ∧
  cve_id v ∉ Derive.applied_patches self.
Proof.
  unfold unremediated. rewrite list_elem_of_filter, affected_elem. tauto.
Qed.

Lemma check_cases self nvd :
  Derive.check self nvd =
  match unremediated self nvd (Derive.pname self) with
  | _ :: _ => unremediated self nvd (Derive.pname self)
  | [] => if decide (replace_char "-" "_" (Derive.pname self) ≠ Derive.pname self)
          then unremediated self nvd (replace_char "-" "_" (Derive.pname self))
          else []
  end.
Proof.
  unfold Derive.check. rewrite check_asking_cases. cbv zeta.
  destruct (unremediated self nvd (Derive.pname self)); [|done].
  by case_decide.
Qed.

(** X7: what [check] reports.  No record is reported twice; a reported
    record is in the index list of one of the candidates, matches that
    candidate with the version of the identity, and its identifier is not
    patched; every such record of the product name itself is reported; and
    nothing is reported exactly when no candidate has such a record. *)
Theorem check_reports self nvd :
  NoDup (Derive.check self nvd) ∧
  (∀ v, v ∈ Derive.check self nvd →
        ∃ c, c ∈ Derive.product_candidates self ∧
             v ∈ NVD.by_product nvd c ∧
             Vulnerability_match v c (Derive.version self) = true ∧
             cve_id v ∉ Derive.applied_patches self) ∧
  (∀ v, v ∈ NVD.by_product nvd (Derive.pname self) →
        Vulnerability_match v (Derive.pname self) (Derive.version self) = true →
        cve_id v ∉ Derive.applied_patches self →
        v ∈ Derive.check self nvd) ∧
  (Derive.check self nvd = [] ↔
   ∀ c, c ∈ Derive.product_candidates self → unremediated self nvd c = []).
Proof.
  split_and!.
  - rewrite check_cases.
    destruct (unremediated self nvd (Derive.pname self)) eqn:Hu.
    + case_decide; [|apply NoDup_nil_2]. apply NoDup_filter, affected_NoDup.
    + rewrite <- Hu. apply NoDup_filter, affected_NoDup.
  - intros v (c & Hc & Hv)%check_unremediated. exists c. split; [done|].
    by apply unremediated_elem.
  - intros v H1 H2 H3.
    assert (v ∈ unremediated self nvd (Derive.pname self)) as Hv
      by (by apply unremediated_elem).
    rewrite check_cases.
    destruct (unremediated self nvd (Derive.pname self)); [|done].
    by apply elem_of_nil in Hv.
  - rewrite check_cases. unfold Derive.product_candidates.
    destruct (unremediated self nvd (Derive.pname self)) eqn:Hu.
    + case_decide.
      * split.
        -- intros Halt c [->|Hc]%elem_of_cons; [done|].
           by apply list_elem_of_singleton in Hc as ->.
        -- intros Hall. apply Hall. right. left.
      * split; [|done]. intros _ c Hc.
        by apply list_elem_of_singleton in Hc as ->.
    + split; [done|]. intros Hall. rewrite <- Hu. apply Hall. left.
Qed.

End reports.

Lemma check_reports_witness :
  cve_2019_0001 ∈ Derive.check
    {| Derive.name := "foo_bar-1.0"; Derive.pname := "foo_bar";
       Derive.version := "1.0"; Derive.patches := "" |}
    (store [cve_2019_0001]).
Proof.
  apply (proj1 (proj2 (proj2 (check_reports
           {| Derive.name := "foo_bar-1.0"; Derive.pname := "foo_bar";
              Derive.version := "1.0"; Derive.patches := "" |}
           (store [cve_2019_0001]))))).
  - vm_compute. left.
  - reflexivity.
  - vm_compute. intros H. by apply elem_of_nil in H.
Defined.

(** ** The mirror and the segments to fetch *)

Section segments.
Implicit Types (s : string) (base l : list ascii) (c : ascii).

Lemma rev_reverse {A} (l : list A) : rev l = reverse l.
Proof. apply rev_alt. Qed.

Lemma rstrip_spec c s :
  ∃ k, chars s = chars (NVD.rstrip c s) ++ replicate k c ∧
       last (chars (NVD.rstrip c s)) ≠ Some c.
Proof.
  unfold NVD.rstrip. rewrite chars_str.
  destruct (span _ (rev (chars s))) as [w r] eqn:Hs.
  apply span_spec in Hs as (Heq & Hw & Hr). simpl.
  exists (length w). split.
  - rewrite <- (rev_involutive (chars s)), Heq, rev_app_distr. f_equal.
    symmetry. apply replicate_as_Forall. split; [by rewrite length_rev|].
    apply Forall_rev. eapply Forall_impl; [exact Hw|].
    intros x. simpl. by rewrite bool_decide_eq_true.
  - rewrite rev_reverse, last_reverse. destruct r as [|x r']; [done|].
    simpl. intros [= ->]. specialize (Hr c r' eq_refl).
    by rewrite bool_decide_true in Hr.
Qed.

Lemma rstrip_unique c s base k :
  chars s = base ++ replicate k c → last base ≠ Some c →
  NVD.rstrip c s = str base.
Proof.
  intros Hs Hlast. unfold NVD.rstrip. rewrite Hs, rev_app_distr.
  rewrite (span_all _ (rev (replicate k c)) (rev base)).
  - simpl. by rewrite rev_involutive.
  - apply Forall_rev, Forall_replicate. by rewrite bool_decide_true.
  - intros x r' Hr. rewrite bool_decide_eq_false. intros ->. apply Hlast.
    by rewrite <- head_reverse, <- rev_reverse, Hr.
Qed.

(** X8: the object that [NVD.__init__] builds.  Its mirror is the given
    one with all final slashes replaced by exactly one; building again
    from that mirror changes nothing; and the yearly segments are the six
    years up to the current one, each once. *)
Theorem NVD_init_normalises mirror current :
  let self := NVD.__init__ mirror current in
  (∃ (base : string) k, chars mirror = chars base ++ replicate k "/"%char ∧
             last (chars base) ≠ Some "/"%char ∧
             NVD.mirror self = base +:+ "/") ∧
  (∀ current', NVD.mirror (NVD.__init__ (NVD.mirror self) current') = NVD.mirror self) ∧
  (∀ y, y ∈ NVD.available_archives self ↔ current - 5 ≤ y ≤ current) ∧
  NoDup (NVD.available_archives self).
Proof.
  intros self. destruct (rstrip_spec "/" mirror) as (k & Hk & Hlast).
  split_and!.
  - by exists (NVD.rstrip "/" mirror), k.
  - intros current'. simpl. f_equal.
    rewrite (rstrip_unique "/" _ (chars (NVD.rstrip "/" mirror)) 1).
    + apply str_chars.
    + by rewrite chars_app.
    + done.
  - intros y. simpl. rewrite elem_of_seqZ. lia.
  - apply NoDup_seqZ.
Qed.

End segments.

Section relevant.
Context `{VP : VersionPredicates}.

(** X9: the segments that [relevant_archives] names.  There are none
    exactly when the last update is less than an hour old; otherwise the
    modified segment is named, and named last; a yearly segment is named
    only when the last update is at least seven days old and is then one
    of the six years up to the current one; and no segment is named
    twice. *)
Theorem relevant_archives_shape mirror current now (r : Root) :
  let l := NVD.relevant_archives (NVD.__init__ mirror current) now r in
  (l = [] ↔ Meta.last_update (meta r) > now - 3600) ∧
  (l ≠ [] → last l = Some modified) ∧
  (∀ y, Year y ∈ l →
        Meta.last_update (meta r) ≤ now - 7 * 86400 ∧ current - 5 ≤ y ≤ current) ∧
  NoDup l.
Proof.
  unfold NVD.relevant_archives. cbv zeta.
  case_bool_decide as H1; [|case_bool_decide as H2].
  - split_and!; [done|done| |apply NoDup_nil_2]. by intros y ?%elem_of_nil.
  - split_and!; [split; [done|intros ?; exfalso; lia]|done| |apply NoDup_singleton].
    by intros y ?%list_elem_of_singleton.
  - split_and!.
    + split; [|intros ?; exfalso; lia]. by intros [_ ?]%app_eq_nil.
    + intros _. apply last_snoc.
    + intros y [Hy|Hy%list_elem_of_singleton]%elem_of_app; [|done].
      apply list_elem_of_fmap in Hy as (y' & [= <-] & Hy). simpl in Hy.
      apply elem_of_seqZ in Hy. lia.
    + apply NoDup_app. split_and!.
      * apply NoDup_fmap_2, NoDup_seqZ. by intros y y' [= ->].
      * intros a (y & -> & _)%list_elem_of_fmap ?%list_elem_of_singleton. done.
      * apply NoDup_singleton.
Qed.

End relevant.

Lemma relevant_archives_shape_witness :
  last (NVD.relevant_archives (NVD.__init__ "https://nvd.example//" 2021) t0
          (current empty_db)) = Some modified.
Proof.
  apply (relevant_archives_shape "https://nvd.example//" 2021 t0 (current empty_db)).
  vm_compute. discriminate.
Defined.

(** ** Downloading and parsing a segment *)

Section segment.
Context `{VP : VersionPredicates}.
Implicit Types (st : State) (arch : Archive.t) (net : Network) (now : Z)
  (raw : list (option Vulnerability)) (d : list (string * Vulnerability))
  (v w : Vulnerability) (a : gmap string Vulnerability).

(** X10: a segment that comes with status 200 and a decodable body is
    parsed, the time of the run is stamped, and the validator round-trips:
    when the response carries an [ETag] header, in whatever case the server
    wrote its name, the next request for this URL carries it as
    [If-None-Match], and the headers for every other URL are as before;
    when it carries none, all headers are as before. *)
Theorem download_stores_validator net now arch mirror st h raw :
  let u := mirror +:+ Archive.download_uri arch in
  net u (Meta.headers_for (meta (root st)) u) = HTTP 200 h (Some raw) →
  ∃ st', Archive.download net now arch mirror st = (Ok (Archive.parse arch raw), st') ∧
         Meta.last_update (meta (root st')) = now ∧
         ∀ u', Meta.headers_for (meta (root st')) u' =
               match ci_get h "ETag" with
               | Some e => if decide (u' = u) then {[ "If-None-Match" := e ]}
                           else Meta.headers_for (meta (root st)) u'
               | None => Meta.headers_for (meta (root st)) u'
               end.
Proof.
  intros u Hresp. rewrite download_run. cbv zeta. fold u. rewrite Hresp.
  rewrite bool_decide_false by lia. rewrite bool_decide_true by done.
  eexists. split_and!; [reflexivity|done|].
  intros u'. simpl. unfold Meta.update_headers_for, Meta.headers_for.
  destruct (ci_get h "ETag") as [e|]; [|done]. simpl.
  case_decide as Hu.
  - subst u'. by rewrite lookup_insert_eq.
  - rewrite lookup_insert_ne by done. destruct (Meta.etag (meta (root st))); [done|].
    by rewrite lookup_empty.
Qed.

(** X11: [download] changes the root, or the archive it is called on,
    only for a response with status 200 and a decodable body.  With any
    other outcome (no response, an error status, another status such as
    304, an undecodable body) the root is as before, and an archive that
    is returned is the one passed in. *)
Theorem download_changes_only_on_fresh net now arch mirror st res st' :
  let u := mirror +:+ Archive.download_uri arch in
  Archive.download net now arch mirror st = (res, st') →
  (∀ h raw, net u (Meta.headers_for (meta (root st)) u) ≠ HTTP 200 h (Some raw)) →
  root st' = root st ∧ ∀ arch', res = Ok arch' → arch' = arch.
Proof.
  intros u. rewrite download_run. cbv zeta. fold u.
  destruct (net u _) as [|c h content] eqn:Hresp.
  { intros [= <- <-] _. done. }
  case_bool_decide; [by intros [= <- <-] _|].
  case_bool_decide as Hc.
  - destruct content as [raw|]; [|by intros [= <- <-] _].
    intros _ Hne. subst c. by destruct (Hne h raw).
  - intros [= <- <-] _. split; [done|]. by intros arch' [= <-].
Qed.

Lemma dict_get_elem {V} k (x : V) (d : list (string * V)) :
  NoDup d.*1 → (k, x) ∈ d ↔ dict_get k d = Some x.
Proof.
  induction d as [|[k0 x0] d IH]; simpl.
  - intros _. rewrite elem_of_nil. split; [done|discriminate].
  - intros [Hk0 Hd]%NoDup_cons. rewrite elem_of_cons, (IH Hd).
    case_decide as Hk; subst.
    + split; [|intros [= ->]; by left].
      intros [[= ->]|Hin]; [done|]. exfalso. apply Hk0.
      rewrite <- (IH Hd) in Hin. apply list_elem_of_fmap. by exists (k, x).
    + split; [|by right]. intros [[= -> ->]|?]; done.
Qed.

(** X12: what [parse] keeps.  Items that failed to parse leave no trace;
    the dictionary has each identifier once; and the record kept under an
    identifier is the last item with that identifier. *)
Theorem parse_keeps_last name raw :
  NoDup (Archive.items (Archive.parse (Archive.__init__ name) raw)).*1 ∧
  ∀ k v, (k, v) ∈ Archive.items (Archive.parse (Archive.__init__ name) raw) ↔
         last (filter (λ w, cve_id w = k) (omap id raw)) = Some v.
Proof.
  destruct (parsed_init_wf name raw) as [Hnd _]. split; [done|].
  intros k v. unfold Archive.items. fold (parsed (Archive.__init__ name) raw).
  rewrite dict_get_elem by done. clear Hnd.
  assert (dict_get k (parsed (Archive.__init__ name) raw)
          = last (filter (λ w, cve_id w = k) (omap id raw))) as ->; [|done].
  induction raw as [|it raw IH] using rev_ind; [done|].
  rewrite parsed_snoc, omap_app, filter_app, last_app. destruct it as [w|]; simpl.
  - rewrite dict_get_set, filter_cons. case_decide; [done|]. by rewrite IH.
  - by rewrite IH.
Qed.

Lemma ingest_idempotent a d : NoDup d.*1 → ingest (ingest a d) d = ingest a d.
Proof.
  intros Hd. apply map_eq. intros k. rewrite !ingest_lookup by done.
  by destruct (dict_get k d).
Qed.

(** X13: [add] is an upsert that touches the records only.  After it, an
    identifier of the archive holds the record of the archive and every
    other identifier holds what it held; the index, the metadata and the
    request log are as before; and adding the same archive again changes
    nothing. *)
Theorem add_upserts (archive : Archive.t) st :
  NoDup (Archive.items archive).*1 →
  ∃ st', NVD.add archive st = (Ok tt, st') ∧
         (∀ id, NVD.by_id (root st') id =
                match dict_get id (Archive.items archive) with
                | Some v => Some v
                | None => NVD.by_id (root st) id
                end) ∧
         by_product (root st') = by_product (root st) ∧
         meta (root st') = meta (root st) ∧
         fetched st' = fetched st ∧
         NVD.add archive st' = (Ok tt, st').
Proof.
  intros Hnd. rewrite add_run. eexists. split; [reflexivity|].
  split_and!; try done.
  - intros id. unfold NVD.by_id. simpl. by apply ingest_lookup.
  - rewrite add_run. simpl. unfold set_advisory. simpl.
    by rewrite ingest_idempotent.
Qed.

(** X14: two archives without an identifier in common can be added in
    either order: the state is the same. *)
Theorem add_commutes_when_disjoint (a1 a2 : Archive.t) st :
  NoDup (Archive.items a1).*1 →
  NoDup (Archive.items a2).*1 →
  (∀ k, k ∈ (Archive.items a1).*1 → k ∉ (Archive.items a2).*1) →
  (NVD.add a1 ;;; NVD.add a2) st = (NVD.add a2 ;;; NVD.add a1) st.
Proof.
  intros H1 H2 Hdisj. unfold bind. rewrite !add_run. simpl. rewrite ?add_run. simpl.
  unfold set_advisory. simpl. do 3 f_equal.
  apply map_eq. intros k. rewrite !ingest_lookup by done.
  destruct (dict_get k (Archive.items a1)) as [v1|] eqn:Hg1;
    destruct (dict_get k (Archive.items a2)) as [v2|] eqn:Hg2; try done.
  exfalso. apply (Hdisj k).
  - apply list_elem_of_fmap. exists (k, v1). split; [done|]. by apply dict_get_elem.
  - apply list_elem_of_fmap. exists (k, v2). split; [done|]. by apply dict_get_elem.
Qed.

End segment.

(** ** The index after [reindex] *)

Section reindexing.
Context `{VP : VersionPredicates}.
Implicit Types (r : Root) (v : Vulnerability) (bp : gmap string (list Vulnerability)).

Lemma index_vuln_no_empty bp v :
  (∀ p l, bp !! p = Some l → l ≠ []) →
  ∀ p l, NVD.index_vuln bp v !! p = Some l → l ≠ [].
Proof.
  unfold NVD.index_vuln. generalize (product <$> nodes v). intros prods.
  revert bp. induction prods as [|q prods IH]; intros bp Hbp; [done|].
  simpl. apply IH. intros p l.
  destruct (decide (q = p)) as [->|Hq].
  - rewrite lookup_insert_eq. intros [= <-]. by intros [? ?]%app_eq_nil.
  - rewrite lookup_insert_ne by done. case_decide.
    + rewrite lookup_insert_ne by done. apply Hbp.
    + apply Hbp.
Qed.

Lemma index_all_no_empty bp vs :
  (∀ p l, bp !! p = Some l → l ≠ []) →
  ∀ p l, foldl NVD.index_vuln bp vs !! p = Some l → l ≠ [].
Proof.
  revert bp. induction vs as [|v vs IH]; intros bp Hbp; [done|].
  simpl. by apply IH, index_vuln_no_empty.
Qed.

Lemma reindexed_unfold r :
  reindexed r = set_by_product r (foldl NVD.index_vuln ∅ (NVD.values (advisory r))).
Proof. reflexivity. Qed.

Lemma reindexed_listed r p :
  NVD.by_product (reindexed r) p =
  mjoin ((λ v, replicate (mentions p v) v) <$> NVD.values (advisory r)).
Proof. apply reindexed_by_product. Qed.

Lemma reindexed_indexed r : indexed (reindexed r).
Proof.
  intros p v. rewrite reindexed_listed. rewrite list_elem_of_join. split.
  - intros (l & Hv & (w & -> & Hw)%list_elem_of_fmap).
    apply elem_of_replicate in Hv as [-> Hn]. split.
    + by apply values_elem.
    + apply mentions_pos. lia.
  - intros [Hst Hp]. exists (replicate (mentions p v) v). split.
    + apply elem_of_replicate. split; [done|]. apply mentions_pos in Hp. lia.
    + apply list_elem_of_fmap. exists v. split; [done|]. by apply values_elem.
Qed.

(** X15: the index that [reindex] builds.  A product has an entry exactly
    when some stored record has a node naming it, and no entry is an empty
    list; the records and the metadata are untouched; and the result does
    not depend on the index that was there before, so rebuilding twice is
    rebuilding once. *)
Theorem reindex_entries r p :
  (by_product (reindexed r) !! p = None ↔
   ∀ k v, advisory r !! k = Some v → p ∉ product <$> nodes v) ∧
  by_product (reindexed r) !! p ≠ Some [] ∧
  advisory (reindexed r) = advisory r ∧
  meta (reindexed r) = meta r ∧
  (∀ bp, reindexed (set_by_product r bp) = reindexed r) ∧
  reindexed (reindexed r) = reindexed r.
Proof.
  assert (by_product (reindexed r) !! p ≠ Some []) as Hne.
  { intros Hp. by eapply (index_all_no_empty ∅ (NVD.values (advisory r))). }
  split_and!; try done.
  pose proof (reindexed_indexed r) as Hidx.
  split.
  - intros Hnone k v Hk Hp.
    assert (v ∈ NVD.by_product (reindexed r) p) as Hv by (apply Hidx; eauto).
    unfold NVD.by_product in Hv. rewrite Hnone in Hv. by apply elem_of_nil in Hv.
  - intros Hall. destruct (by_product (reindexed r) !! p) as [[|v l]|] eqn:Hl;
      [done| |done].
    assert (v ∈ NVD.by_product (reindexed r) p) as Hv.
    { unfold NVD.by_product. rewrite Hl. left. }
    apply Hidx in Hv as [[k Hk] Hp]. by destruct (Hall k v Hk).
Qed.

(** X16: the answer of [affected] on a rebuilt index: exactly the stored
    records that have a node naming the product and that match the product
    and the version; in particular nothing for a product that no stored
    record names. *)
Theorem affected_after_reindex r p version :
  (∀ v, v ∈ NVD.affected (reindexed r) p version ↔
        (∃ k, advisory r !! k = Some v) ∧
        p ∈ product <$> nodes v ∧
        Vulnerability_match v p version = true) ∧
  ((∀ k v, advisory r !! k = Some v → p ∉ product <$> nodes v) →
   NVD.affected (reindexed r) p version = []).
Proof.
  assert (∀ v, v ∈ NVD.affected (reindexed r) p version ↔
            (∃ k, advisory r !! k = Some v) ∧
            p ∈ product <$> nodes v ∧
            Vulnerability_match v p version = true) as Hchar.
  { intros v. rewrite affected_elem, (reindexed_indexed r p v). tauto. }
  split; [done|]. intros Hall.
  destruct (NVD.affected (reindexed r) p version) as [|v l] eqn:Ha; [done|].
  destruct (proj1 (Hchar v)) as ([k Hk] & Hp & _); [left|].
  by destruct (Hall k v Hk).
Qed.

End reindexing.

Lemma affected_after_reindex_witness :
  NVD.affected (reindexed one_record) "gnutls" "3.0" = [].
Proof.
  apply (proj2 (affected_after_reindex one_record "gnutls" "3.0")).
  intros k v Hk. unfold one_record in Hk. simpl in Hk.
  apply lookup_singleton_Some in Hk as [<- <-]. vm_compute.
  intros H. apply elem_of_cons in H as [H|H]; [discriminate H|].
  apply elem_of_cons in H as [H|H]; [discriminate H|]. by apply elem_of_nil in H.
Defined.

Lemma download_stores_validator_witness :
  ∃ st', Archive.download feed_server t0 (Archive.__init__ modified)
           "https://nvd.example/" (at_root empty_root)
         = (Ok (Archive.parse (Archive.__init__ modified) [Some openssl_new]), st') ∧
         Meta.last_update (meta (root st')) = t0 ∧
         Meta.headers_for (meta (root st'))
           "https://nvd.example/nvdcve-1.1-modified.json.gz"
         = {[ "If-None-Match" := "v1" ]}.
Proof.
  destruct (download_stores_validator feed_server t0 (Archive.__init__ modified)
              "https://nvd.example/" (at_root empty_root)
              {[ "etag" := "v1" ]} [Some openssl_new] eq_refl)
    as (st' & Hd & Ht & Hh).
  exists st'. split_and!; [exact Hd|exact Ht|].
  rewrite Hh. reflexivity.
Defined.

Lemma download_changes_only_on_fresh_witness :
  root (Archive.download broken_2016 t0 (Archive.__init__ (Year 2016))
          "https://nvd.example/" (at_root one_record)).2
  = one_record.
Proof.
  apply (download_changes_only_on_fresh broken_2016 t0 (Archive.__init__ (Year 2016))
           "https://nvd.example/" (at_root one_record)
           (Archive.download broken_2016 t0 (Archive.__init__ (Year 2016))
              "https://nvd.example/" (at_root one_record)).1
           (Archive.download broken_2016 t0 (Archive.__init__ (Year 2016))
              "https://nvd.example/" (at_root one_record)).2).
  - reflexivity.
  - intros h raw H. vm_compute in H. discriminate H.
Defined.

Lemma add_upserts_witness :
  ∃ st', NVD.add archive_2021 (at_root one_record) = (Ok tt, st') ∧
         (∀ id, NVD.by_id (root st') id =
                match dict_get id (Archive.items archive_2021) with
                | Some v => Some v
                | None => NVD.by_id one_record id
                end) ∧
         by_product (root st') = by_product one_record ∧
         meta (root st') = meta one_record ∧
         fetched st' = [] ∧
         NVD.add archive_2021 st' = (Ok tt, st').
Proof.
  apply (add_upserts archive_2021 (at_root one_record)).
  apply NoDup_singleton.
Defined.

Lemma add_commutes_when_disjoint_witness :
  (NVD.add archive_2019 ;;; NVD.add archive_2021) (at_root one_record)
  = (NVD.add archive_2021 ;;; NVD.add archive_2019) (at_root one_record).
Proof.
  apply (add_commutes_when_disjoint archive_2019 archive_2021 (at_root one_record)).
  - apply NoDup_singleton.
  - apply NoDup_singleton.
  - intros k Hk. vm_compute in Hk. apply list_elem_of_singleton in Hk as ->.
    vm_compute. intros H. apply list_elem_of_singleton in H. discriminate H.
Defined.

(** ** Updating keeps the store consistent *)

Section consistency.
Context `{VP : VersionPredicates}.
Implicit Types (st : State) (r : Root) (db : DB) (self : NVD.t)
  (net : Network) (now : Z) (a : ArchiveName) (v w : Vulnerability).

Lemma download_items net now a mirror st arch st1 :
  Archive.download net now (Archive.__init__ a) mirror st = (Ok arch, st1) →
  ∃ raw, Archive.items arch = parsed (Archive.__init__ a) raw.
Proof.
  rewrite download_run. cbv zeta. destruct (net _ _) as [|c h content]; [done|].
  case_bool_decide; [done|]. case_bool_decide.
  - destruct content as [raw|]; [|done]. intros [= <- <-]. by exists raw.
  - intros [= <- <-]. by exists [].
Qed.

Lemma ingest_parsed_kept (adv : gmap string Vulnerability) name raw id :
  is_Some (adv !! id) → is_Some (ingest adv (parsed (Archive.__init__ name) raw) !! id).
Proof.
  intros Hid. rewrite ingest_lookup by apply parsed_init_wf.
  by destruct (dict_get _ _).
Qed.

(** The loop keeps every record under its own identifier and drops no
    identifier, whether it ends cleanly or raises. *)
Lemma update_loop_advisory net now self l st res st' :
  NVD.update_loop net now self l st = (res, st') →
  (keyed (advisory (root st)) → keyed (advisory (root st'))) ∧
  (∀ id, is_Some (advisory (root st) !! id) → is_Some (advisory (root st') !! id)).
Proof.
  revert st. induction l as [|a l IH]; intros st.
  - by intros [= <- <-].
  - rewrite update_loop_cons.
    destruct (Archive.download _ _ _ _ _) as [[arch|e] st1] eqn:Hd.
    + destruct (download_items _ _ _ _ _ _ _ Hd) as [raw Hraw].
      apply download_effect in Hd as (_ & _ & Hadv & _).
      intros [Hk Hm]%IH. simpl in *. rewrite Hraw, Hadv in *. split.
      * intros Hkey. by apply Hk, ingest_parsed_keyed.
      * intros id Hid. by apply Hm, ingest_parsed_kept.
    + apply download_effect in Hd as (_ & _ & Hadv & _).
      intros [= <- <-]. by rewrite Hadv.
Qed.

Lemma update_advisory net now self st res st' :
  NVD.update net now self st = (res, st') →
  (keyed (advisory (root st)) → keyed (advisory (root st'))) ∧
  (∀ id, is_Some (advisory (root st) !! id) → is_Some (advisory (root st') !! id)) ∧
  (clean res = true → root st' = reindexed (root st')).
Proof.
  rewrite update_run.
  destruct (NVD.update_loop _ _ _ _ _) as [[[]|e] st1] eqn:Hloop;
    apply update_loop_advisory in Hloop as [Hk Hm].
  - rewrite reindex_run. intros [= <- <-]. by split_and!.
  - intros [= <- <-]. by split_and!.
Qed.

(** X17: what [update] does to the records.  Whether it ends cleanly or
    raises, it drops no identifier and keeps every record under its own
    identifier; and when it ends cleanly, the index is the index of the
    records: a product's list holds exactly the stored records with a node
    naming the product. *)
Theorem update_keeps_consistent net now self st res st' :
  NVD.update net now self st = (res, st') →
  (∀ id, is_Some (NVD.by_id (root st) id) → is_Some (NVD.by_id (root st') id)) ∧
  (keyed (advisory (root st)) → keyed (advisory (root st'))) ∧
  (clean res = true → indexed (root st')).
Proof.
  intros (Hk & Hm & Hidx)%update_advisory. split_and!; [done|done|].
  intros Hres. rewrite (Hidx Hres). apply reindexed_indexed.
Qed.

Lemma update_loop_app net now self l1 l2 st :
  NVD.update_loop net now self (l1 ++ l2) st =
  match NVD.update_loop net now self l1 st with
  | (Ok _, st1) => NVD.update_loop net now self l2 st1
  | (Raised e, st1) => (Raised e, st1)
  end.
Proof.
  revert st. induction l1 as [|a l1 IH]; intros st; [done|].
  cbn [app]. rewrite !update_loop_cons.
  by destruct (Archive.download _ _ _ _ _) as [[arch|e] st1].
Qed.

Lemma relevant_archives_modified_last self now r :
  ¬ Meta.last_update (meta r) > now - 3600 →
  ∃ l, NVD.relevant_archives self now r = l ++ [modified].
Proof.
  intros Hw. unfold NVD.relevant_archives. rewrite bool_decide_false by done.
  case_bool_decide; [by exists []|by eexists].
Qed.

(** X18: the modified segment has the last word.  When an update that is
    due ends cleanly and the mirror serves the modified segment with
    status 200, the last item of that segment with a given identifier is
    the record stored under the identifier, whatever the yearly segments
    and the store held for it. *)
Theorem modified_segment_wins net now self st st' h pre post v :
  ¬ Meta.last_update (meta (root st)) > now - 3600 →
  (∀ headers, net (url self modified) headers = HTTP 200 h (Some (pre ++ Some v :: post))) →
  Forall (λ it, ∀ w, it = Some w → cve_id w ≠ cve_id v) post →
  NVD.update net now self st = (Ok tt, st') →
  NVD.by_id (root st') (cve_id v) = Some v.
Proof.
  intros Hdue Hnet Hpost. rewrite update_run.
  destruct (relevant_archives_modified_last self now (root st) Hdue) as [l ->].
  rewrite update_loop_app.
  destruct (NVD.update_loop net now self l st) as [[[]|e] st1]; [|done].
  rewrite update_loop_cons, download_run. cbv zeta.
  change (NVD.mirror self +:+ Archive.download_uri (Archive.__init__ modified))
    with (url self modified).
  rewrite Hnet. rewrite bool_decide_false by lia. rewrite bool_decide_true by done.
  cbn [NVD.update_loop ret]. rewrite reindex_run. intros [= <-].
  change (ingest (advisory (root st1))
            (parsed (Archive.__init__ modified) (pre ++ Some v :: post))
          !! cve_id v = Some v).
  rewrite ingest_lookup by apply parsed_init_wf.
  by rewrite parsed_last.
Qed.

End consistency.

Lemma update_keeps_consistent_witness :
  indexed (root (NVD.update feed_server t0 nvd_2021 (at_root one_record)).2).
Proof.
  apply (update_keeps_consistent feed_server t0 nvd_2021 (at_root one_record)
           (NVD.update feed_server t0 nvd_2021 (at_root one_record)).1
           (NVD.update feed_server t0 nvd_2021 (at_root one_record)).2).
  - apply surjective_pairing.
  - vm_compute. reflexivity.
Defined.

Lemma modified_segment_wins_witness :
  NVD.by_id (root (NVD.update plain_server t0 nvd_2021 (at_root empty_root)).2)
            "CVE-2020-0001"
  = Some openssl_new.
Proof.
  apply (modified_segment_wins plain_server t0 nvd_2021 (at_root empty_root)
           (NVD.update plain_server t0 nvd_2021 (at_root empty_root)).2
           ∅ [Some openssl_old; None] [] openssl_new).
  - vm_compute. discriminate.
  - intros headers. reflexivity.
  - constructor.
  - vm_compute. reflexivity.
Defined.

(** ** What sessions keep *)

Section keeping.
Context `{VP : VersionPredicates}.
Implicit Types (st : State) (r : Root) (db : DB) (self : NVD.t)
  (net : Network) (now : Z).

Lemma indexed_set_meta r m : indexed r → indexed (set_meta r m).
Proof. intros Hr p v. apply (Hr p v). Qed.

(** One session that runs [update]: the committed root before and
    after. *)
Lemma session_keeps net now self db res packed db' f :
  NVD.session (NVD.update net now self) db = (res, packed, db', f) →
  (∀ id, is_Some (NVD.by_id (current db) id) → is_Some (NVD.by_id (current db') id)) ∧
  (keyed (advisory (current db)) → keyed (advisory (current db'))) ∧
  (indexed (current db) → indexed (current db')).
Proof.
  rewrite session_run.
  destruct (NVD.update _ _ _ _) as [[[]|e] st] eqn:Hup.
  - apply update_advisory in Hup as (Hk & Hm & Hidx).
    destruct (exit_clean st db) as (db1 & -> & Hcur).
    cbv zeta. intros [= <- <- <- <-]. rewrite Hcur. split_and!; [done|done|].
    intros _. apply indexed_set_meta. rewrite (Hidx eq_refl).
    apply reindexed_indexed.
  - by intros [= <- <- <- <-].
Qed.

(** X19: what no sequence of sessions undoes.  Through any number of
    sessions that run [update], clean or not, an identifier that is stored
    stays stored, records stay under their own identifiers, and the
    committed index stays the index of the committed records. *)
Theorem sessions_keep_store self runs db :
  (∀ id, is_Some (NVD.by_id (current db) id) →
         is_Some (NVD.by_id (current (sessions self runs db).2) id)) ∧
  (keyed (advisory (current db)) →
   keyed (advisory (current (sessions self runs db).2))) ∧
  (indexed (current db) → indexed (current (sessions self runs db).2)).
Proof.
  revert db. induction runs as [|[net now] runs IH]; intros db; [done|].
  rewrite sessions_cons.
  destruct (NVD.session (NVD.update net now self) db) as [[[res packed] db'] f] eqn:Hs.
  apply session_keeps in Hs as (H1 & H2 & H3).
  destruct (IH db') as (I1 & I2 & I3). cbn [snd]. split_and!; auto.
Qed.

(** X20: the requests of one [update].  They go to the URLs of the
    relevant segments, in that order and each at most once: to all of them
    when the update ends cleanly, to a first part of them when it raises;
    so less than an hour after the last update nothing is requested,
    whatever the mirror would answer. *)
Theorem update_requests net now self st res st' :
  NVD.update net now self st = (res, st') →
  ∃ f, fetched st' = fetched st ++ f ∧
       f.*1 `prefix_of` (url self <$> NVD.relevant_archives self now (root st)) ∧
       (clean res = true →
        f.*1 = url self <$> NVD.relevant_archives self now (root st)) ∧
       (Meta.last_update (meta (root st)) > now - 3600 → f = [] ∧ res = Ok tt).
Proof.
  intros Hup.
  assert (Meta.last_update (meta (root st)) > now - 3600 →
          fetched st' = fetched st ∧ res = Ok tt) as Hwin.
  { intros Hw. rewrite update_in_window, reindex_run in Hup by done.
    by injection Hup as <- <-. }
  rewrite update_run in Hup.
  destruct (NVD.update_loop _ _ _ _ _) as [[[]|e] st1] eqn:Hloop;
    apply update_loop_effect in Hloop as (f & Hf & Hpre & Hall & _).
  - rewrite reindex_run in Hup. injection Hup as <- <-. simpl.
    exists f. split_and!; [done|done|done|].
    intros [Hst _]%Hwin. simpl in Hst. rewrite Hf in Hst. split; [|done].
    apply (f_equal length) in Hst. rewrite length_app in Hst.
    destruct f; [done|simpl in Hst; lia].
  - injection Hup as <- <-. exists f. split_and!; [done|done|done|].
    by intros [_ ?]%Hwin.
Qed.

End keeping.

Lemma sessions_keep_store_witness :
  is_Some (NVD.by_id (current (sessions nvd_2021 twenty_six db_synced).2)
                     "CVE-2020-0001").
Proof.
  apply (proj1 (sessions_keep_store nvd_2021 twenty_six db_synced) "CVE-2020-0001").
  vm_compute. eexists. reflexivity.
Defined.

Lemma update_requests_witness :
  ∃ f, fetched (NVD.update broken_2016 (t0 + 60) nvd_2021 (at_root (current db_synced))).2
         = [] ++ f ∧
       f.*1 `prefix_of` (@url exact_versions nvd_2021 <$>
                         NVD.relevant_archives nvd_2021 (t0 + 60) (current db_synced)) ∧
       (clean (NVD.update broken_2016 (t0 + 60) nvd_2021 (at_root (current db_synced))).1
          = true →
        f.*1 = @url exact_versions nvd_2021 <$>
               NVD.relevant_archives nvd_2021 (t0 + 60) (current db_synced)) ∧
       (Meta.last_update (meta (current db_synced)) > t0 + 60 - 3600 →
        f = [] ∧
        (NVD.update broken_2016 (t0 + 60) nvd_2021 (at_root (current db_synced))).1
          = Ok tt).
Proof.
  apply (update_requests broken_2016 (t0 + 60) nvd_2021 (at_root (current db_synced))).
  apply surjective_pairing.
Defined.

(** ** URLs of segments *)

Section urls.
Implicit Types (s t : string) (x : N) (a b : ArchiveName).

Lemma pretty_N_char_digit x : is_digit (pretty_N_char x) = true.
Proof. unfold pretty_N_char. by repeat case_match. Qed.

Lemma pretty_N_go_digit x s : digit_first s → digit_first (pretty_N_go x s).
Proof.
  revert s. induction (N.lt_wf_0 x) as [x _ IH]; intros s Hs.
  assert (x = 0 ∨ 0 < x)%N as [->|?] by lia.
  - by rewrite pretty_N_go_0.
  - rewrite pretty_N_go_step by done. apply IH.
    + by apply N.div_lt.
    + apply pretty_N_char_digit.
Qed.

Lemma pretty_Z_not_modified (y : Z) : pretty y ≠ "modified".
Proof.
  unfold pretty, pretty_Z. destruct y as [|p|p]; [done| |done].
  unfold pretty, pretty_positive, pretty, pretty_N. case_decide; [done|].
  intros Heq. pose proof (pretty_N_go_digit (N.pos p) "" I) as Hd.
  by rewrite Heq in Hd.
Qed.

Lemma app_inj_tail s t (e : string) : s +:+ e = t +:+ e → s = t.
Proof.
  intros Heq. apply chars_inj. apply (f_equal chars) in Heq.
  rewrite !chars_app in Heq. by apply app_inv_tail in Heq.
Qed.

(** X21: the URL of a segment under a mirror determines the segment: two
    segments never share a URL, so never a validator. *)
Theorem url_determines_segment `{VP : VersionPredicates} (self : NVD.t) a b :
  url self a = url self b → a = b.
Proof.
  unfold url, Archive.__init__. simpl. intros Heq.
  apply (inj (String.app _)) in Heq. apply (inj (String.app _)) in Heq.
  apply app_inj_tail in Heq.
  destruct a as [y|], b as [y'|]; simpl in Heq.
  - f_equal. by apply (inj pretty).
  - by apply pretty_Z_not_modified in Heq.
  - symmetry in Heq. by apply pretty_Z_not_modified in Heq.
  - done.
Qed.

End urls.

Lemma url_determines_segment_witness :
  Year 2021 = Year 2021.
Proof.
  apply (@url_determines_segment exact_versions nvd_2021 (Year 2021) (Year 2021)).
  reflexivity.
Defined.

(** ** Reports against a consistent store *)

(** X22: against a store whose index is the index of its records, [check]
    reports stored records only, each with a node that names one of the
    candidates of the identity. *)
Theorem check_reports_stored `{VP : VersionPredicates}
  (self : Derive.t) (nvd : Root) (v : Vulnerability) :
  indexed nvd →
  v ∈ Derive.check self nvd →
  (∃ k, advisory nvd !! k = Some v) ∧
  ∃ c, c ∈ Derive.product_candidates self ∧ c ∈ product <$> nodes v.
Proof.
  intros Hidx (c & Hc & Hv)%check_unremediated.
  apply unremediated_elem in Hv as (Hv & _).
  apply Hidx in Hv as [Hst Hp]. split; [done|]. by exists c.
Qed.

Lemma check_reports_stored_witness :
  (∃ k, advisory (store [cve_2019_0001]) !! k = Some cve_2019_0001) ∧
  ∃ c, c ∈ Derive.product_candidates foo_bar ∧ c ∈ product <$> nodes cve_2019_0001.
Proof.
  apply (check_reports_stored foo_bar (store [cve_2019_0001]) cve_2019_0001).
  - apply reindexed_indexed.
  - vm_compute. left.
Defined.

(** ** The case of the patch text *)

Section patch_case.
Implicit Types (s m : list ascii) (c : ascii) (self : Derive.t).

Lemma span_digit_upper s :
  span is_digit (upper_char <$> s) =
  ((upper_char <$> (span is_digit s).1), (upper_char <$> (span is_digit s).2)).
Proof.
  induction s as [|c s IH]; [done|]. cbn [fmap list_fmap span].
  rewrite (proj1 (proj2 (proj2 (upper_char_facts c)))).
  destruct (is_digit c); [|done].
  change (list_fmap ascii ascii upper_char s) with (upper_char <$> s).
  rewrite IH. by destruct (span is_digit s).
Qed.

Lemma match_at_upper s :
  R_CVE.match_at (upper_char <$> s) =
  (λ mr : list ascii * list ascii, (upper_char <$> mr.1, upper_char <$> mr.2))
    <$> R_CVE.match_at s.
Proof.
  destruct s as [|c [|v [|e [|d1 [|y1 [|y2 [|y3 [|y4 [|d2 [|n s']]]]]]]]]]; try done.
  cbn [fmap list_fmap R_CVE.match_at].
  change (list_fmap ascii ascii upper_char s') with (upper_char <$> s').
  rewrite !letter_upper.
  rewrite !(proj1 (proj2 (upper_char_facts _))),
          !(proj1 (proj2 (proj2 (upper_char_facts _)))).
  destruct (_ && _); [|done].
  rewrite span_digit_upper. by destruct (span is_digit s') as [ds r].
Qed.

Lemma finditer_from_upper k s :
  R_CVE.finditer_from k (upper_char <$> s) =
  (λ m : list ascii, upper_char <$> m) <$> R_CVE.finditer_from k s.
Proof.
  revert k. induction s as [|c s IH]; intros k; [done|].
  destruct k as [|k].
  - change (upper_char <$> c :: s) with (upper_char c :: (upper_char <$> s)).
    cbn [R_CVE.finditer_from].
    change (upper_char c :: (upper_char <$> s)) with (upper_char <$> c :: s).
    rewrite match_at_upper.
    destruct (R_CVE.match_at (c :: s)) as [[m r]|]; simpl.
    + by rewrite IH, length_fmap.
    + by rewrite IH.
  - simpl. by rewrite IH.
Qed.

Lemma fold_set_add_fmap {A B} `{EqDecision B} (f : A → B) (l : list A) acc :
  foldl (λ a t, set_add (f t) a) acc l = foldl (λ a x, set_add x a) acc (f <$> l).
Proof. revert acc. induction l as [|t l IH]; intros acc; [done|]. simpl. apply IH. Qed.

Lemma upper_finditer_upper (t : string) :
  upper <$> R_CVE.finditer (upper t) = upper <$> R_CVE.finditer t.
Proof.
  unfold R_CVE.finditer, upper at 2. rewrite chars_str.
  change (map upper_char (chars t)) with (upper_char <$> chars t).
  rewrite finditer_from_upper, <- !list_fmap_compose.
  apply list_fmap_ext. intros _ m _. simpl. unfold upper. rewrite !chars_str.
  f_equal. change (map upper_char ?l) with (upper_char <$> l).
  rewrite <- list_fmap_compose. apply list_fmap_ext. intros _ c _. simpl.
  apply upper_char_facts.
Qed.

(** X23: the patched identifiers do not depend on the case of an ASCII
    patch text: two identities whose patch texts are ASCII text and equal
    in upper case have the same patched identifiers. *)
Theorem applied_patches_ignores_case self self' :
  ascii_text (Derive.patches self) →
  ascii_text (Derive.patches self') →
  upper (Derive.patches self) = upper (Derive.patches self') →
  Derive.applied_patches self = Derive.applied_patches self'.
Proof.
  intros _ _ Hup. unfold Derive.applied_patches.
  rewrite (fold_set_add_fmap upper (R_CVE.finditer (Derive.patches self))),
          (fold_set_add_fmap upper (R_CVE.finditer (Derive.patches self'))).
  by rewrite <- (upper_finditer_upper (Derive.patches self)),
             <- (upper_finditer_upper (Derive.patches self')), Hup.
Qed.

End patch_case.

Lemma applied_patches_ignores_case_witness :
  Derive.applied_patches openssl_patched =
  Derive.applied_patches
    {| Derive.name := "openssl-1.0.1"; Derive.pname := "openssl";
       Derive.version := "1.0.1"; Derive.patches := "Fix-CVE-2021-1234.PATCH" |}.
Proof.
  apply (applied_patches_ignores_case openssl_patched
           {| Derive.name := "openssl-1.0.1"; Derive.pname := "openssl";
              Derive.version := "1.0.1"; Derive.patches := "Fix-CVE-2021-1234.PATCH" |});
    [by apply ascii_text_check.. | reflexivity].
Defined.
